(** * FunctionGemma tool calls: the call codec, the dispatcher and the model lifecycle

    A shallow embedding of [useToolCalls.ts] (the parser [parseToolCall],
    [hasToolCall], [extractNonToolText], the dispatcher [executeToolCall] and
    [processResponse]) and of [LLMContext.tsx] (the model lifecycle), with the
    properties of the specification stated over it. *)

From Stdlib Require Import Ascii String NArith.
From stdpp Require Import base option list strings gmap.

(** ** JavaScript strings

    A JavaScript string is a sequence of UTF-16 code units.  A code unit is a
    number; nothing below depends on the bound 2^16, so the theorems hold for
    every sequence of numbers. *)

Abbreviation str := (list N).

(** The code units of a literal (all literals of the source are ASCII). *)
Fixpoint lit (s : string) : str :=
  match s with
  | EmptyString => []
  | String a s' => N_of_ascii a :: lit s'
  end.

Arguments lit : simpl never.

(** [LineTerminator] of ECMAScript: LF, CR, LS, PS. *)
Definition is_line_terminator (c : N) : bool :=
  bool_decide (c ∈ [10; 13; 8232; 8233]%N).

(** What [String.prototype.trim] strips: [WhiteSpace] and [LineTerminator]. *)
Definition is_white_space (c : N) : bool :=
  bool_decide (c ∈ [9; 11; 12; 32; 160; 5760; 8239; 8287; 12288; 65279]%N)
  || ((8192 <=? c) && (c <=? 8202))%N
  || is_line_terminator c.

(** The class [\w] (no [u] or [i] flag): ASCII letters, digits, underscore. *)
Definition is_word (c : N) : bool :=
  ((48 <=? c) && (c <=? 57) || (65 <=? c) && (c <=? 90)
   || (c =? 95) || (97 <=? c) && (c <=? 122))%N.

(** The class [[^}]]; 125 is the closing brace. *)
Definition not_rbrace (c : N) : bool := negb (c =? 125)%N.

(** The class [.] (no [s] flag): anything but a line terminator. *)
Definition dot (c : N) : bool := negb (is_line_terminator c).

Fixpoint drop_while (p : N -> bool) (s : str) : str :=
  match s with
  | c :: s' => if p c then drop_while p s' else s
  | [] => []
  end.

Definition trimStart (s : str) : str := drop_while is_white_space s.
Definition trimEnd (s : str) : str := reverse (drop_while is_white_space (reverse s)).
(** [s.trim()] *)
Definition trim (s : str) : str := trimEnd (trimStart s).

(** [s.indexOf(c)] for a one-unit pattern; [None] stands for [-1]. *)
Fixpoint indexOf (c : N) (s : str) : option nat :=
  match s with
  | [] => None
  | x :: s' => if (x =? c)%N then Some 0 else S <$> indexOf c s'
  end.

(** [s.substring(a, b)] for [a <= b] and [s.substring(a)]. *)
Definition substring (a b : nat) (s : str) : str := take (b - a) (drop a s).
Definition substringFrom (a : nat) (s : str) : str := drop a s.

(** [s.split(c)] for a one-unit separator: the pieces between the
    separators, so never an empty array. *)
Fixpoint split (c : N) (s : str) : list str :=
  match s with
  | [] => [[]]
  | x :: s' =>
      if (x =? c)%N then [] :: split c s'
      else match split c s' with
           | piece :: pieces => (x :: piece) :: pieces
           | [] => [[x]]
           end
  end.

(** [l] at the front of [s]: what follows it. *)
Fixpoint strip_prefix (l s : str) : option str :=
  match l, s with
  | [], _ => Some s
  | a :: l', b :: s' => if (a =? b)%N then strip_prefix l' s' else None
  | _ :: _, [] => None
  end.

(** [s.includes(l)] *)
Fixpoint includes (l s : str) : bool :=
  match strip_prefix l s with
  | Some _ => true
  | None => match s with
            | [] => false
            | _ :: s' => includes l s'
            end
  end.

(** ** Regular expressions

    The fragment of ECMAScript patterns the source uses, with the
    backtracking semantics of the language: a matcher takes the rest of the
    input, the captures so far and a continuation, and a quantifier tries its
    alternatives in order (greedy: longest first; lazy: shortest first). *)

Inductive regex : Type :=
| Lit (l : str)                           (* a literal sequence *)
| Star (greedy : bool) (cls : N -> bool)  (* [cls*] and [cls*?] *)
| Plus (cls : N -> bool)                  (* [cls+] *)
| Group (r : regex)                       (* [(r)] *)
| Seq (r1 r2 : regex).                    (* [r1r2] *)

Section Matcher.
Context {R : Type}.

Fixpoint star_greedy (cls : N -> bool) (k : str -> option R) (s : str) : option R :=
  match s with
  | c :: s' =>
      if cls c then
        match star_greedy cls k s' with
        | Some r => Some r
        | None => k s
        end
      else k s
  | [] => k []
  end.

Fixpoint star_lazy (cls : N -> bool) (k : str -> option R) (s : str) : option R :=
  match k s with
  | Some r => Some r
  | None =>
      match s with
      | c :: s' => if cls c then star_lazy cls k s' else None
      | [] => None
      end
  end.

Fixpoint rmatch (r : regex) (s : str) (caps : list str)
    (k : str -> list str -> option R) : option R :=
  match r with
  | Lit l =>
      match strip_prefix l s with
      | Some s' => k s' caps
      | None => None
      end
  | Star true cls => star_greedy cls (λ s', k s' caps) s
  | Star false cls => star_lazy cls (λ s', k s' caps) s
  | Plus cls =>
      match s with
      | c :: s' => if cls c then star_greedy cls (λ s', k s' caps) s' else None
      | [] => None
      end
  | Group r1 =>
      rmatch r1 s caps (λ s' caps', k s' (caps' ++ [take (length s - length s') s]))
  | Seq r1 r2 =>
      rmatch r1 s caps (λ s' caps', rmatch r2 s' caps' k)
  end.

End Matcher.

(** A match of [r] at the front of [s]: the rest of the input after the
    match and the captured groups [$1], [$2], ... *)
Definition re_exec (r : regex) (s : str) : option (str * list str) :=
  rmatch r s [] (λ s' caps, Some (s', caps)).

(** [s.match(r)] for [r] without the [g] flag: the leftmost match; the text
    before it, the rest after it and the groups. *)
Fixpoint re_match (r : regex) (s : str) : option (str * str * list str) :=
  match re_exec r s with
  | Some (rest, caps) => Some ([], rest, caps)
  | None =>
      match s with
      | [] => None
      | c :: s' =>
          match re_match r s' with
          | Some (before, rest, caps) => Some (c :: before, rest, caps)
          | None => None
          end
      end
  end.

(** [s.replace(r, '')] for [r] with the [g] flag: every match, found from
    left to right and each search starting where the last match ended, is
    removed.  [pending] counts the code units of the current match still to be
    dropped; after an empty match the search moves on by one unit. *)
Fixpoint remove_from (r : regex) (pending : nat) (s : str) : str :=
  match pending with
  | S n =>
      match s with
      | _ :: s' => remove_from r n s'
      | [] => []
      end
  | O =>
      match s with
      | [] => []
      | c :: s' =>
          match re_exec r s with
          | Some (rest, _) =>
              match length s - length rest with
              | S n => remove_from r n s'
              | O => c :: remove_from r 0 s'
              end
          | None => c :: remove_from r 0 s'
          end
      end
  end.

Definition remove_all (r : regex) (s : str) : str := remove_from r 0 s.

(** ** [useToolCalls.ts] *)

(** A plain object used as a string-keyed dictionary ([Record<string, string>]
    created by the literal [{}], so with prototype [Object.prototype]). *)
Abbreviation dict := (gmap (list N) (list N)).

(** [obj[key] = value] on such an object.  Every key becomes an own property,
    except [__proto__]: that name is an accessor of [Object.prototype], the
    assignment runs its setter, and the setter ignores a value that is neither
    an object nor [null] (ECMAScript, set Object.prototype.__proto__, step 2),
    so a string stored under it is lost. *)
Definition set_property (key value : str) (obj : dict) : dict :=
  if decide (key = lit "__proto__") then obj else <[key := value]> obj.

(** [obj.key] for the names the dispatcher reads ([theme], [message],
    [title], [type], [screen]): [Object.prototype] has none of them, so the
    read is the own property or [undefined] ([None]). *)
Definition get_property (key : str) (obj : dict) : option str := obj !! key.

Record ToolCall : Type := mkToolCall {
  name : str;
  parameters : dict;
}.

(** The pattern of [parseToolCall]: the start marker with [call:], a group
    of one or more word characters, an opening brace, a group of any number
    of units other than a closing brace (greedy), a closing brace with the
    end marker. *)
Definition toolCallRegex : regex :=
  Seq (Lit (lit "<start_function_call>call:"))
 (Seq (Group (Plus is_word))
 (Seq (Lit (lit "{"))
 (Seq (Group (Star true not_rbrace))
      (Lit (lit "}<end_function_call>"))))).

(** The two patterns removed from a value, each with the [g] flag. *)
Definition escapeOpen : regex := Lit (lit "<escape>").
Definition escapeClose : regex := Lit (lit "</escape>").

(** One turn of the loop [for (const pair of paramPairs)]; 58 is the
    colon. *)
Definition parsePair (parameters : dict) (pair : str) : dict :=
  match indexOf 58 pair with
  | None => parameters
  | Some colonIndex =>
      let key := trim (substring 0 colonIndex pair) in
      let value := trim (substringFrom (colonIndex + 1) pair) in
      let value := remove_all escapeClose (remove_all escapeOpen value) in
      match key with
      | [] => parameters
      | _ :: _ => set_property key value parameters
      end
  end.

(** The parameters read from [match[2]]; the empty string is falsy, and 44
    is the comma. *)
Definition parseParameters (paramsString : str) : dict :=
  match paramsString with
  | [] => ∅
  | _ :: _ => foldl parsePair ∅ (split 44 paramsString)
  end.

Definition parseToolCall (response : str) : option ToolCall :=
  match re_match toolCallRegex response with
  | None => None
  | Some (_, _, groups) =>
      let functionName := default [] (groups !! 0) in
      let paramsString := default [] (groups !! 1) in
      Some {| name := functionName; parameters := parseParameters paramsString |}
  end.

Definition hasToolCall (response : str) : bool :=
  includes (lit "<start_function_call>") response.

(** The pattern of [extractNonToolText] (with the [g] flag): the start
    marker, any number of units other than line terminators (lazy), the end
    marker. *)
Definition callSpanRegex : regex :=
  Seq (Lit (lit "<start_function_call>"))
 (Seq (Star false dot)
      (Lit (lit "<end_function_call>"))).

Definition extractNonToolText (response : str) : str :=
  trim (remove_all callSpanRegex response).

Record ToolExecutionResult : Type := mkResult {
  success : bool;
  message : str;
  action : option str;
}.

(** The host callbacks of [UseToolCallsOptions].  A callback returns nothing;
    all the dispatcher can observe of it is whether it returns ([true]) or
    throws ([false]). *)
Record UseToolCallsOptions : Type := mkOptions {
  onThemeChange : str -> bool;
  onNotification : str -> str -> str -> bool;
  onNavigate : str -> bool;
}.

(** The callback invocations made during a dispatch, in order. *)
Inductive invocation : Type :=
| ThemeChange (theme : str)
| Notification (title message type : str)
| Navigate (screen : str).

(** How a call of a function ends: with a value, or with an exception that
    reaches the caller. *)
Inductive completion (A : Type) : Type :=
| Returned (a : A)
| Raised.
Arguments Returned {A} a.
Arguments Raised {A}.

(** [!v] for a string or [undefined]. *)
Definition falsy (v : option str) : bool :=
  match v with
  | None | Some [] => true
  | Some (_ :: _) => false
  end.

(** [v || d] for a string or [undefined] [v]. *)
Definition or_else (v : option str) (d : str) : str :=
  match v with
  | Some (c :: s) => c :: s
  | _ => d
  end.

Definition quote : str := [34%N].

Definition executeToolCall (options : UseToolCallsOptions) (toolCall : ToolCall)
    : list invocation * completion ToolExecutionResult :=
  if decide (name toolCall = lit "change_theme") then
    let theme := get_property (lit "theme") (parameters toolCall) in
    if falsy theme then
      ([], Returned {| success := false; message := lit "Missing theme parameter";
                       action := None |})
    else
      let theme := default [] theme in
      ([ThemeChange theme],
       if onThemeChange options theme then
         Returned {| success := true;
                     message := lit "Theme changed to " ++ theme;
                     action := Some (lit "change_theme(" ++ theme ++ lit ")") |}
       else Raised)
  else if decide (name toolCall = lit "show_notification") then
    let message := get_property (lit "message") (parameters toolCall) in
    let title := or_else (get_property (lit "title") (parameters toolCall))
                         (lit "Notification") in
    let type := or_else (get_property (lit "type") (parameters toolCall))
                        (lit "info") in
    if falsy message then
      ([], Returned {| success := false; message := lit "Missing message parameter";
                       action := None |})
    else
      let message := default [] message in
      ([Notification title message type],
       if onNotification options title message type then
         Returned {| success := true;
                     message := lit "Notification shown: " ++ message;
                     action := Some (lit "show_notification(" ++ quote ++ title
                                     ++ quote ++ lit ", " ++ quote ++ message
                                     ++ quote ++ lit ", " ++ quote ++ type
                                     ++ quote ++ lit ")") |}
       else Raised)
  else if decide (name toolCall = lit "navigate_to_screen") then
    let screen := get_property (lit "screen") (parameters toolCall) in
    if falsy screen then
      ([], Returned {| success := false; message := lit "Missing screen parameter";
                       action := None |})
    else
      let screen := default [] screen in
      ([Navigate screen],
       if onNavigate options screen then
         Returned {| success := true;
                     message := lit "Navigated to " ++ screen;
                     action := Some (lit "navigate_to_screen(" ++ screen ++ lit ")") |}
       else Raised)
  else
    ([], Returned {| success := false;
                     message := lit "Unknown function: " ++ name toolCall;
                     action := None |}).

Record Processed : Type := mkProcessed {
  toolCall : option ToolCall;
  result : option ToolExecutionResult;
  textResponse : str;
}.

Definition processResponse (options : UseToolCallsOptions) (response : str)
    : list invocation * completion Processed :=
  let toolCall := parseToolCall response in
  let textResponse := extractNonToolText response in
  match toolCall with
  | Some call =>
      match executeToolCall options call with
      | (log, Returned result) =>
          (log, Returned {| toolCall := Some call; result := Some result;
                            textResponse := textResponse |})
      | (log, Raised) => (log, Raised)
      end
  | None =>
      ([], Returned {| toolCall := None; result := None; textResponse := response |})
  end.

(** The text of the assistant message [App.tsx] builds from a processed
    response: [result ? (textResponse || result.message) : (textResponse || response)]. *)
Definition assistantContent (response : str) (p : Processed) : str :=
  match result p with
  | Some r => or_else (Some (textResponse p)) (message r)
  | None => or_else (Some (textResponse p)) response
  end.

Definition quietOptions : UseToolCallsOptions :=
  {| onThemeChange := λ _, true; onNotification := λ _ _ _, true; onNavigate := λ _, true |}.

(** ** [LLMContext.tsx]: the model lifecycle *)

Module LLMContext.

Inductive ModelStatus : Type :=
| Idle | Asking | Downloading | Downloaded | Loading | Ready | Error.

#[global] Instance ModelStatus_eq_dec : EqDecision ModelStatus.
Proof. solve_decision. Defined.

(** The value of [downloadProgress]: the literals [0] and [1], or the quotient
    [totalBytesWritten / totalBytesExpectedToWrite] of a progress event, kept
    as its two operands. *)
Inductive progress : Type :=
| Zero
| One
| Ratio (totalBytesWritten totalBytesExpectedToWrite : N).

(** A live inference context of the engine. *)
Inductive LlamaCtx : Type := Ctx (id : N).

(** The fields of the provider: three React states and the ref that holds the
    inference handle. *)
Record LLMState : Type := mkState {
  status : ModelStatus;
  downloadProgress : progress;
  error : option str;
  llamaContextRef : option LlamaCtx;
}.

Definition initial : LLMState :=
  {| status := Idle; downloadProgress := Zero; error := None; llamaContextRef := None |}.

(** [isModelReady: !!llamaContextRef.current] *)
Definition isModelReady (s : LLMState) : bool :=
  match llamaContextRef s with
  | Some _ => true
  | None => false
  end.

(** A thrown value: an [Error] with its message, or something else. *)
Inductive thrown : Type :=
| ErrorObject (msg : str)
| OtherValue.

(** [err instanceof Error ? err.message : fallback] *)
Definition messageOf (err : thrown) (fallback : str) : str :=
  match err with
  | ErrorObject msg => msg
  | OtherValue => fallback
  end.

(** What the collaborators answer during one call.  The file system:
    [modelFile.exists] and [modelFile.size]; the download: its progress events
    and how [downloadAsync] ends; the engine: how [releaseAllLlama],
    [initLlama] and [completion] end. *)
Inductive downloadEnd : Type :=
| DownloadThrows (err : thrown)
| DownloadReturns (uri : option str).     (* [result?.uri], [None] when missing *)

Inductive releaseEnd : Type :=
| ReleaseThrows (err : thrown)
| ReleaseReturns.

Inductive initEnd : Type :=
| InitThrows (err : thrown)
| InitReturns (context : LlamaCtx).

Inductive completionEnd : Type :=
| CompletionThrows (err : thrown)
| CompletionReturns (text : str).

(** The six operations of the context, each with the answers it receives. *)
Inductive operation : Type :=
| askToDownload
| cancelDownload
| confirmDownload (fileExists : bool) (fileSize : N)   (* size 0: none or empty *)
    (events : list (N * N)) (download : downloadEnd)
| loadModel (fileExists : bool) (release : releaseEnd) (init : initEnd)
| releaseModel (release : releaseEnd)
| generateResponse (userPrompt : str) (onPartial : bool)
    (tokens : list str) (completion : completionEnd).

Definition setStatus (v : ModelStatus) (s : LLMState) : LLMState :=
  {| status := v; downloadProgress := downloadProgress s; error := error s;
     llamaContextRef := llamaContextRef s |}.
Definition setDownloadProgress (v : progress) (s : LLMState) : LLMState :=
  {| status := status s; downloadProgress := v; error := error s;
     llamaContextRef := llamaContextRef s |}.
Definition setError (v : option str) (s : LLMState) : LLMState :=
  {| status := status s; downloadProgress := downloadProgress s; error := v;
     llamaContextRef := llamaContextRef s |}.
Definition setContext (v : option LlamaCtx) (s : LLMState) : LLMState :=
  {| status := status s; downloadProgress := downloadProgress s; error := error s;
     llamaContextRef := v |}.

(** The [catch] blocks: [setError(...); setStatus('error')]. *)
Definition failed (err : thrown) (fallback : str) (s : LLMState) : LLMState :=
  setStatus Error (setError (Some (messageOf err fallback)) s).

(** The progress callback of the download, once per event:
    [setDownloadProgress(totalBytesWritten / totalBytesExpectedToWrite)]. *)
Fixpoint reports (events : list (N * N)) (s : LLMState) : list LLMState :=
  match events with
  | [] => []
  | ev :: events' =>
      let s' := setDownloadProgress (Ratio ev.1 ev.2) s in
      s' :: reports events' s'
  end.

(** The states a call goes through: one state at the end of every
    stretch of code that runs without interruption (up to an [await], a
    callback from the download, or the end of the call), in order.  The last
    one is the state the call leaves. *)
Definition run (op : operation) (s : LLMState) : list LLMState :=
  match op with
  | askToDownload => [setError None (setStatus Asking s)]
  | cancelDownload => [setStatus Idle s]
  | confirmDownload fileExists fileSize events download =>
      let s1 := setDownloadProgress Zero (setError None (setStatus Downloading s)) in
      if fileExists && negb (fileSize =? 0)%N && (100000000 <? fileSize)%N then
        [setDownloadProgress One (setStatus Downloaded s1)]
      else
        let reported := s1 :: reports events s1 in
        let s2 := List.last reported s1 in
        reported ++
        [match download with
         | DownloadThrows err => failed err (lit "Failed to download model") s2
         | DownloadReturns None =>
             failed (ErrorObject (lit "Download failed - no URI returned"))
                    (lit "Failed to download model") s2
         | DownloadReturns (Some []) =>
             failed (ErrorObject (lit "Download failed - no URI returned"))
                    (lit "Failed to download model") s2
         | DownloadReturns (Some (_ :: _)) =>
             setDownloadProgress One (setStatus Downloaded s2)
         end]
  | loadModel fileExists release init =>
      let s1 := setError None (setStatus Loading s) in
      if negb fileExists then
        [failed (ErrorObject (lit "Model file not found. Please download first."))
                (lit "Failed to load model") s1]
      else
        let initialise (s2 : LLMState) : LLMState :=
          match init with
          | InitThrows err => failed err (lit "Failed to load model") s2
          | InitReturns context => setStatus Ready (setContext (Some context) s2)
          end in
        match llamaContextRef s1 with
        | Some _ =>
            match release with
            | ReleaseThrows err => [s1; failed err (lit "Failed to load model") s1]
            | ReleaseReturns =>
                let s2 := setContext None s1 in [s1; s2; initialise s2]
            end
        | None => [s1; initialise s1]
        end
  | releaseModel release =>
      match release with
      | ReleaseThrows _ => [s; s]
      | ReleaseReturns => [s; setStatus Downloaded (setContext None s)]
      end
  | generateResponse _ _ _ _ => [s]
  end.

(** The state a call leaves. *)
Definition after (op : operation) (s : LLMState) : LLMState :=
  List.last (run op s) s.

(** The states a sequence of calls goes through, each call starting when the
    one before it has ended. *)
Fixpoint trace (ops : list operation) (s : LLMState) : list LLMState :=
  match ops with
  | [] => []
  | op :: ops' => run op s ++ trace ops' (after op s)
  end.

(** What [generateResponse] gives back to its caller: the text, or the
    message of the error it rejects with. *)
Definition generated (op : operation) (s : LLMState) : option (str + str) :=
  match op with
  | generateResponse _ onPartial tokens completion =>
      match llamaContextRef s with
      | None => Some (inl (lit "Model is not ready"))
      | Some _ =>
          match completion with
          | CompletionThrows err =>
              Some (inl (messageOf err (lit "Failed to generate response")))
          | CompletionReturns text =>
              let fullText :=
                if onPartial then concat (filter (λ t, t ≠ []) tokens) else [] in
              Some (inr (match text with
                         | _ :: _ => text
                         | [] => fullText
                         end))
          end
      end
  | _ => None
  end.

(** The invariant of the specification and its half from left to right. *)
Definition handleIffReady (s : LLMState) : Prop :=
  llamaContextRef s ≠ None ↔ status s = Ready.

Definition readyHasHandle (s : LLMState) : Prop :=
  status s = Ready → llamaContextRef s ≠ None.

(** The calls that leave [ready] without giving the handle back when one is
    held. *)
Definition needsNoHandle (op : operation) : bool :=
  match op with
  | askToDownload | cancelDownload | confirmDownload _ _ _ _ | loadModel _ _ _ => true
  | releaseModel _ | generateResponse _ _ _ _ => false
  end.

(** A sequence in which those calls are made only while no handle is held. *)
Fixpoint gated (ops : list operation) (s : LLMState) : Prop :=
  match ops with
  | [] => True
  | op :: ops' =>
      (needsNoHandle op = true → llamaContextRef s = None) ∧ gated ops' (after op s)
  end.

(** What the interface lets the user do in a state.  [App.tsx] shows the
    download button when [!isModelReady && status === 'idle'] and enables the
    input when [isModelReady]; [ModelDownloadDialog.tsx] shows Cancel and
    Download (or Retry) in [asking] and [error] and Load Model in
    [downloaded].  No component calls [releaseModel]. *)
Definition offered (s : LLMState) (op : operation) : bool :=
  match op with
  | askToDownload => negb (isModelReady s) && bool_decide (status s = Idle)
  | cancelDownload | confirmDownload _ _ _ _ =>
      bool_decide (status s = Asking) || bool_decide (status s = Error)
  | loadModel _ _ _ => bool_decide (status s = Downloaded)
  | generateResponse _ _ _ _ => isModelReady s
  | releaseModel _ => false
  end.

Fixpoint offeredAll (ops : list operation) (s : LLMState) : Prop :=
  match ops with
  | [] => True
  | op :: ops' => offered s op = true ∧ offeredAll ops' (after op s)
  end.

(** A context freshly returned by the engine. *)
Definition ctx0 : LlamaCtx := Ctx 0.

(** A load that succeeds, then the download button. *)
Definition loadThenAsk : list operation :=
  [loadModel true ReleaseReturns (InitReturns ctx0); askToDownload].

(** The way of the interface to [ready]. *)
Definition downloadAndLoad : list operation :=
  [askToDownload;
   confirmDownload false 0 [(1, 2)%N] (DownloadReturns (Some (lit "file:///model.gguf")));
   loadModel true ReleaseReturns (InitReturns ctx0);
   generateResponse (lit "dark mode") false [] (CompletionReturns (lit "ok"))].

End LLMContext.

(** ** The wire format and the grammar of the specification

    These definitions follow the words of the specification; the source has
    no encoder and no grammar other than its two regular expressions. *)

Definition startMarker : str := lit "<start_function_call>".
Definition endMarker : str := lit "<end_function_call>".
Definition escapeMarker : str := lit "<escape>".

(** [<start_function_call>call:NAME{BODY}<end_function_call>] *)
Definition callSpan (nm body : str) : str :=
  startMarker ++ lit "call:" ++ nm ++ lit "{" ++ body ++ lit "}" ++ endMarker.

(** [KEY:<escape>VALUE<escape>] *)
Definition encodeParam (kv : str * str) : str :=
  kv.1 ++ lit ":" ++ escapeMarker ++ kv.2 ++ escapeMarker.

Fixpoint joinComma (pieces : list str) : str :=
  match pieces with
  | [] => []
  | [piece] => piece
  | piece :: pieces' => piece ++ lit "," ++ joinComma pieces'
  end.

(** The wire string built from a name and a list of key/value pairs. *)
Definition encodeCall (nm : str) (pairs : list (str * str)) : str :=
  callSpan nm (joinComma (encodeParam <$> pairs)).

(** The inputs the round trip is stated for: keys that are not empty, carry
    no white space around them and no comma, colon or closing brace; values
    without comma, closing brace and escape marker in either spelling; no key
    twice. *)
Definition keyUnit (c : N) : bool :=
  negb (c =? 44)%N && negb (c =? 58)%N && negb (c =? 125)%N.

Definition valueUnit (c : N) : bool :=
  negb (c =? 44)%N && negb (c =? 125)%N.

(** [l] occurs in [s]. *)
Definition occurs (l s : str) : Prop := ∃ pre post, s = pre ++ l ++ post.

Definition is_name (nm : str) : Prop := nm ≠ [] ∧ forallb is_word nm = true.

Definition wellFormedKey (k : str) : Prop :=
  k ≠ [] ∧ trim k = k ∧ forallb keyUnit k = true.

Definition wellFormedValue (v : str) : Prop :=
  forallb valueUnit v = true ∧ ¬ occurs escapeMarker v
  ∧ ¬ occurs (lit "</escape>") v.

Definition wellFormedPairs (pairs : list (str * str)) : Prop :=
  NoDup pairs.*1 ∧ Forall (λ kv, wellFormedKey kv.1 ∧ wellFormedValue kv.2) pairs.

(** The call grammar of the specification, read as widely as its words
    allow: [params] is a non-empty comma-separated list of
    [KEY ":" "<escape>" VALUE "<escape>"], with any text for [KEY] and
    [VALUE]. *)
Definition grammarParam (p : str) : Prop :=
  ∃ key value, p = encodeParam (key, value).

Definition grammarCall (s : str) : Prop :=
  ∃ nm body, s = callSpan nm body ∧ is_name nm ∧
    (body = [] ∨ ∃ ps, ps ≠ [] ∧ Forall grammarParam ps ∧ body = joinComma ps).

Definition hasGrammarCall (response : str) : Prop :=
  ∃ pre s post, grammarCall s ∧ response = pre ++ s ++ post.

(** What [toolCallRegex] accepts: the frame of the grammar around any body
    without a closing brace. *)
Definition looseCall (s : str) : Prop :=
  ∃ nm body, s = callSpan nm body ∧ is_name nm ∧ forallb not_rbrace body = true.

Definition hasLooseCall (response : str) : Prop :=
  ∃ pre s post, looseCall s ∧ response = pre ++ s ++ post.

(** What [callSpanRegex] accepts: a start marker, text on one line, an end
    marker. *)
Definition lineSpan (s : str) : Prop :=
  ∃ mid, s = startMarker ++ mid ++ endMarker ∧ forallb dot mid = true.

Definition hasLineSpan (response : str) : Prop :=
  ∃ pre s post, lineSpan s ∧ response = pre ++ s ++ post.

(** A call span read by its markers alone: from a start marker to the
    nearest end marker after it. *)
Definition nearestSpan (s : str) : Prop :=
  ∃ mid, s = startMarker ++ mid ++ endMarker ∧ ¬ occurs endMarker mid.

(** Such a span that lies on one line. *)
Definition nearestLineSpan (s : str) : Prop :=
  ∃ mid, s = startMarker ++ mid ++ endMarker ∧ forallb dot mid = true
    ∧ ¬ occurs endMarker mid.

(** A response made of prose and spans in turn: [p0 s1 p1 ... sn pn]. *)
Definition interleave (p0 : str) (items : list (str * str)) : str :=
  p0 ++ concat ((λ sp, sp.1 ++ sp.2) <$> items).

(** The value of the last segment with a colon whose trimmed key is [k]:
    the decoding of the specification (segments without a colon and empty
    keys ignored, last occurrence wins). *)
Definition segmentKey (seg : str) : option str :=
  match indexOf 58 seg with
  | None => None
  | Some i => Some (trim (take i seg))
  end.

Definition segmentValue (seg : str) : str :=
  match indexOf 58 seg with
  | None => []
  | Some i =>
      remove_all escapeClose (remove_all escapeOpen (trim (drop (i + 1) seg)))
  end.

Fixpoint lastBinding (k : str) (segs : list str) : option str :=
  match segs with
  | [] => None
  | seg :: segs' =>
      match lastBinding k segs' with
      | Some v => Some v
      | None =>
          if decide (k ≠ [] ∧ segmentKey seg = Some k)
          then Some (segmentValue seg) else None
      end
  end.

(** The continuation of the lazy star of [callSpanRegex]. *)
Definition afterEnd (s : str) : option (str * list str) :=
  match strip_prefix endMarker s with
  | Some s' => Some (s', [])
  | None => None
  end.

(** ** Inputs of the scenarios *)

(** The scenario of the specification. *)
Definition notificationInput : str :=
  lit "<start_function_call>call:show_notification{message:<escape>Hi<escape>}<end_function_call>".

(** A call whose parameter is not written between escape markers. *)
Definition bareValueInput : str :=
  lit "<start_function_call>call:change_theme{theme:dark}<end_function_call>".

(** A call cut off before its end marker. *)
Definition truncatedInput : str :=
  lit "<start_function_call>call:change_theme{theme:<escape>dark<escape>}".

(** A span inside a start marker that is cut in two. *)
Definition nestedInput : str :=
  lit "<start_<start_function_call>x<end_function_call>function_call>y<end_function_call>".

(** Prose around one call. *)
Definition proseAroundInput : str :=
  lit "Done. <start_function_call>call:change_theme{theme:<escape>dark<escape>}<end_function_call> Enjoy!".

(** Two calls, the second with a line feed in its value. *)
Definition firstCall : str :=
  lit "<start_function_call>call:change_theme{theme:<escape>dark<escape>}<end_function_call>".
Definition secondCall : str :=
  lit "<start_function_call>call:show_notification{message:<escape>line one"
  ++ [10%N] ++ lit "line two<escape>}<end_function_call>".
Definition twoCallsInput : str := firstCall ++ secondCall.

(** A parameter body with a padded key, a segment without a colon, an
    empty key and a duplicate key. *)
Definition segmentsBody : str :=
  lit " a :<escape>1<escape>,junk,:<escape>2<escape>,a:<escape>3<escape>".

(** A call with the parameter [__proto__]. *)
Definition protoInput : str :=
  encodeCall (lit "f") [(lit "__proto__", lit "x")].

(** A call that names [__proto__] twice before another parameter, and the
    same call with [q] in the place of [__proto__]. *)
Definition protoTwicePairs : list (str * str) :=
  [(lit "__proto__", lit "a"); (lit "__proto__", lit "b"); (lit "k", lit "v")].
Definition protoTwiceInput : str := encodeCall (lit "f") protoTwicePairs.

Definition plainTwicePairs : list (str * str) :=
  [(lit "q", lit "a"); (lit "q", lit "b"); (lit "k", lit "v")].
Definition plainTwiceInput : str := encodeCall (lit "f") plainTwicePairs.

(** [s] is empty or starts with a unit outside of the class [p]. *)
Definition stops (p : N → bool) (s : str) : Prop :=
  match s with
  | [] => True
  | c :: _ => p c = false
  end.

(** The class of the units other than [c]. *)
Definition unlike (c x : N) : bool := negb (x =? c)%N.

(** ** [tools.ts]: the tool schemas *)

Module Tools.

(** One entry of [properties]; [enum] is [None] when the field is absent. *)
Record ParameterProperty : Type := mkProperty {
  type : str;
  description : str;
  enum : option (list str);
}.

(** The [parameters] of a tool.  [properties] is an object used as a
    dictionary; it is kept as the list of its entries in the order
    [Object.entries] gives them, the order of insertion (no key of the source
    is an array index). *)
Record ToolParameters : Type := mkParameters {
  parametersType : str;
  properties : list (str * ParameterProperty);
  required : list str;
}.

Record Tool : Type := mkTool {
  name : str;
  toolDescription : str;
  parameters : ToolParameters;
}.

Definition changeThemeTool : Tool :=
  {| name := lit "change_theme";
     toolDescription := lit "Changes the app theme to light or dark mode";
     parameters :=
       {| parametersType := lit "object";
          properties :=
            [(lit "theme",
              {| type := lit "string";
                 description := lit "The theme to switch to";
                 enum := Some [lit "light"; lit "dark"; lit "toggle"] |})];
          required := [lit "theme"] |} |}.

Definition showNotificationTool : Tool :=
  {| name := lit "show_notification";
     toolDescription := lit "Shows a notification or alert message to the user";
     parameters :=
       {| parametersType := lit "object";
          properties :=
            [(lit "title",
              {| type := lit "string";
                 description := lit "The notification title";
                 enum := None |});
             (lit "message",
              {| type := lit "string";
                 description := lit "The notification message body";
                 enum := None |});
             (lit "type",
              {| type := lit "string";
                 description := lit "The type of notification";
                 enum := Some [lit "info"; lit "success"; lit "warning"; lit "error"] |})];
          required := [lit "message"] |} |}.

Definition navigateToScreenTool : Tool :=
  {| name := lit "navigate_to_screen";
     toolDescription := lit "Navigates to a different screen or section of the app";
     parameters :=
       {| parametersType := lit "object";
          properties :=
            [(lit "screen",
              {| type := lit "string";
                 description := lit "The screen to navigate to";
                 enum := Some [lit "home"; lit "settings"; lit "profile"; lit "about"] |})];
          required := [lit "screen"] |} |}.

Definition availableTools : list Tool :=
  [changeThemeTool; showNotificationTool; navigateToScreenTool].

(** [pieces.join(sep)] *)
Fixpoint join (sep : str) (pieces : list str) : str :=
  match pieces with
  | [] => []
  | [piece] => piece
  | piece :: pieces' => piece ++ sep ++ join sep pieces'
  end.

(** The line of one parameter; an [enum] that is present, be it empty, is
    truthy. *)
Definition formatProperty (entry : str * ParameterProperty) : str :=
  let paramStr :=
    lit "    - " ++ entry.1 ++ lit " (" ++ type entry.2 ++ lit "): "
    ++ description entry.2 in
  match enum entry.2 with
  | Some options => paramStr ++ lit " [options: " ++ join (lit ", ") options ++ lit "]"
  | None => paramStr
  end.

Definition formatTool (tool : Tool) : str :=
  let params := join [10%N] (formatProperty <$> properties (parameters tool)) in
  lit "- " ++ name tool ++ lit ": " ++ toolDescription tool ++ [10%N]
  ++ lit "  Parameters:" ++ [10%N] ++ params.

Definition formatToolsForPrompt (tools : list Tool) : str :=
  join [10%N; 10%N] (formatTool <$> tools).

End Tools.

(** ** [ChatInterface.tsx] and [App.tsx]: what the user sends and sees *)

Module App.

(** [handleSend] of the chat input: what is passed to [onSendMessage], if
    anything. *)
Definition handleSend (inputText : str) (isLoading disabled : bool) : option str :=
  match trim inputText with
  | [] => None
  | _ :: _ => if negb isLoading && negb disabled then Some (trim inputText) else None
  end.

(** The states of [AppContent] the callbacks write; of a notification the
    title, the message and the type are kept (its id and its time stamp come
    from the clock). *)
Record AppState : Type := mkApp {
  isDarkMode : bool;
  currentScreen : str;
  notification : option (str * str * str);
}.

Definition initialApp : AppState :=
  {| isDarkMode := false; currentScreen := lit "home"; notification := None |}.

(** The three handlers given to [useToolCalls]; none of them throws. *)
Definition onThemeChange (theme : str) (s : AppState) : AppState :=
  {| isDarkMode :=
       if decide (theme = lit "toggle") then negb (isDarkMode s)
       else bool_decide (theme = lit "dark");
     currentScreen := currentScreen s;
     notification := notification s |}.

Definition onNotification (title message type : str) (s : AppState) : AppState :=
  {| isDarkMode := isDarkMode s;
     currentScreen := currentScreen s;
     notification := Some (title, message, type) |}.

Definition onNavigate (screen : str) (s : AppState) : AppState :=
  {| isDarkMode := isDarkMode s;
     currentScreen := screen;
     notification := notification s |}.

(** The handler behind an invocation of the dispatcher. *)
Definition perform (s : AppState) (i : invocation) : AppState :=
  match i with
  | ThemeChange theme => onThemeChange theme s
  | Notification title message type => onNotification title message type s
  | Navigate screen => onNavigate screen s
  end.

(** *** [ScreenIndicator.tsx]: the component fed with [currentScreen] *)

Record ScreenInfo : Type := mkScreenInfo {
  title : str;
  icon : str;
  description : str;
}.

(** The own properties of the table [screenInfo]. *)
Definition screenInfo : list (str * ScreenInfo) :=
  [(lit "home",
    {| title := lit "Home"; icon := lit "H";
       description := lit "Main chat interface" |});
   (lit "settings",
    {| title := lit "Settings"; icon := lit "S";
       description := lit "App configuration" |});
   (lit "profile",
    {| title := lit "Profile"; icon := lit "P";
       description := lit "User information" |});
   (lit "about",
    {| title := lit "About"; icon := lit "A";
       description := lit "App information" |})].

(** What [screenInfo[key]] evaluates to.  The table is an object literal, so
    a key it does not own is looked up on [Object.prototype]: [inherited]
    tells which keys the engine finds there ([toString], [constructor] and
    the like).  Any other key gives [undefined]; the type [ScreenName] of the
    key is not checked when the program runs. *)
Inductive tableValue : Type :=
| Own (info : ScreenInfo)
| Inherited
| Undefined.

Definition get_screenInfo (inherited : str → bool) (key : str) : tableValue :=
  match (list_to_map screenInfo : gmap (list N) ScreenInfo) !! key with
  | Some info => Own info
  | None => if inherited key then Inherited else Undefined
  end.

(** [value.field] for [title], [icon] and [description]: the field of an
    own entry; [undefined] ([None]) on what [Object.prototype] holds, a
    function or an object without such a property; a [TypeError] on
    [undefined]. *)
Definition read (field : ScreenInfo → str) (value : tableValue) :
    completion (option str) :=
  match value with
  | Own info => Returned (Some (field info))
  | Inherited => Returned None
  | Undefined => Raised
  end.

Definition andThen {A B : Type} (c : completion A) (f : A → completion B) :
    completion B :=
  match c with
  | Returned a => f a
  | Raised => Raised
  end.

(** What is drawn: the tabs, each with its key, whether it carries the
    active styles, its icon and its title; then the title and the
    description of the current screen.  The colours ([isDarkMode]) are left
    out. *)
Record Tab : Type := mkTab {
  tabKey : str;
  isActive : bool;
  tabIcon : option str;
  tabTitle : option str;
}.

Record Indicator : Type := mkIndicator {
  tabBar : list Tab;
  currentScreenTitle : option str;
  currentScreenDescription : option str;
}.

Definition screens : list str :=
  [lit "home"; lit "settings"; lit "profile"; lit "about"].

(** The callback of [screens.map]. *)
Definition tab (inherited : str → bool) (currentScreen screen : str) :
    completion Tab :=
  let isActive := bool_decide (screen = currentScreen) in
  let info := get_screenInfo inherited screen in
  andThen (read icon info) (λ i,
  andThen (read title info) (λ t,
  Returned {| tabKey := screen; isActive := isActive;
              tabIcon := i; tabTitle := t |})).

(** [list.map(f)] with a callback that may throw. *)
Fixpoint mapTabs (f : str → completion Tab) (l : list str) :
    completion (list Tab) :=
  match l with
  | [] => Returned []
  | x :: l' =>
      andThen (f x) (λ y, andThen (mapTabs f l') (λ ys, Returned (y :: ys)))
  end.

(** The component: it returns what is drawn, or throws. *)
Definition ScreenIndicator (inherited : str → bool) (currentScreen : str) :
    completion Indicator :=
  andThen (mapTabs (tab inherited currentScreen) screens) (λ tabs,
  andThen (read title (get_screenInfo inherited currentScreen)) (λ t,
  andThen (read description (get_screenInfo inherited currentScreen)) (λ d,
  Returned {| tabBar := tabs; currentScreenTitle := t;
              currentScreenDescription := d |}))).

(** The tabs drawn with the active styles. *)
Definition activeTabs (view : Indicator) : list str :=
  tabKey <$> filter (λ t, isActive t = true) (tabBar view).

(** The property names of [Object.prototype] in ECMAScript (with those of
    its Annex B), for an engine that has them all. *)
Definition objectPrototypeKeys : list str :=
  [lit "constructor"; lit "hasOwnProperty"; lit "isPrototypeOf";
   lit "propertyIsEnumerable"; lit "toLocaleString"; lit "toString";
   lit "valueOf"; lit "__proto__"; lit "__defineGetter__";
   lit "__defineSetter__"; lit "__lookupGetter__"; lit "__lookupSetter__"].

Definition standardInherited (key : str) : bool :=
  bool_decide (key ∈ objectPrototypeKeys).

Inductive Role : Type := User | Assistant | System.

(** The [toolCall] of a processed response (the field of the same name of
    a chat message is declared next). *)
Definition decoded (p : Processed) : option ToolCall := toolCall p.

(** A chat message without its id and its time stamp; [toolCall] holds
    [name], [action] and [success]. *)
Record ChatMessage : Type := mkMessage {
  role : Role;
  content : str;
  toolCall : option (str * str * bool);
}.

(** [handleSendMessage]: the callbacks invoked and the message added after
    the one of the user, given how [generateResponse] ends ([inl] the message
    of the error it rejects with, [inr] the text).  The handlers of the
    application return, so processing the response returns. *)
Definition handleSendMessage (outcome : str + str) : list invocation * ChatMessage :=
  match outcome with
  | inl msg =>
      ([], {| role := System; content := lit "Error: " ++ msg; toolCall := None |})
  | inr response =>
      match processResponse quietOptions response with
      | (log, Returned p) =>
          (log,
           {| role := Assistant;
              content := assistantContent response p;
              toolCall :=
                match decoded p, result p with
                | Some call, Some r =>
                    Some (name call, or_else (action r) (name call ++ lit "()"),
                          success r)
                | _, _ => None
                end |})
      | (log, Raised) =>
          (log, {| role := System;
                   content := lit "Error: Failed to generate response";
                   toolCall := None |})
      end
  end.

End App.

(** ** The calls [LLMContext.tsx] makes to the engine *)

Module Engine.
Import LLMContext.

(** A call of [releaseAllLlama] or [initLlama] that has ended, with what it
    gave: whether the release returned, the context of the initialisation. *)
Inductive engineCall : Type :=
| ReleaseAll (returned : bool)
| Init (context : option LlamaCtx).

Definition returnedOf (release : releaseEnd) : bool :=
  match release with
  | ReleaseReturns => true
  | ReleaseThrows _ => false
  end.

Definition contextOf (init : initEnd) : option LlamaCtx :=
  match init with
  | InitReturns context => Some context
  | InitThrows _ => None
  end.

(** The engine calls of one operation, in order. *)
Definition engineCalls (op : operation) (s : LLMState) : list engineCall :=
  match op with
  | loadModel fileExists release init =>
      if negb fileExists then []
      else
        match llamaContextRef s with
        | Some _ =>
            match release with
            | ReleaseThrows _ => [ReleaseAll false]
            | ReleaseReturns => [ReleaseAll true; Init (contextOf init)]
            end
        | None => [Init (contextOf init)]
        end
  | releaseModel release => [ReleaseAll (returnedOf release)]
  | _ => []
  end.

Fixpoint engineLog (ops : list operation) (s : LLMState) : list engineCall :=
  match ops with
  | [] => []
  | op :: ops' => engineCalls op s ++ engineLog ops' (after op s)
  end.

(** The context given by the last initialisation that no release has
    followed, and whether a log ever initialises while such a context is
    there. *)
Definition unreleased (held : option LlamaCtx) (call : engineCall) : option LlamaCtx :=
  match call with
  | ReleaseAll true => None
  | ReleaseAll false => held
  | Init (Some context) => Some context
  | Init None => held
  end.

Fixpoint oneAtATime (held : option LlamaCtx) (log : list engineCall) : bool :=
  match log with
  | [] => true
  | call :: log' =>
      match call, held with
      | Init _, Some _ => false
      | _, _ => oneAtATime (unreleased held call) log'
      end
  end.

End Engine.

(** ** Facts about strings *)

(** Replace the literals of a hypothesis by their code units. *)
Ltac eval_lit_in H :=
  repeat match type of H with
         | context [lit ?s] =>
             let v := eval vm_compute in (lit s) in
             change (lit s) with v in H
         end;
  simpl app in H.

Lemma strip_prefix_app (l s : str) : strip_prefix l (l ++ s) = Some s.
Proof.
  induction l as [|a l IH]; simpl; [done|].
  by rewrite N.eqb_refl.
Qed.

Lemma strip_prefix_Some (l s r : str) : strip_prefix l s = Some r → s = l ++ r.
Proof.
  revert s. induction l as [|a l IH]; intros [|b s]; simpl; try congruence.
  destruct (N.eqb_spec a b) as [->|]; [|done].
  intros H. by rewrite (IH _ H).
Qed.

Lemma includes_here (l s r : str) : strip_prefix l s = Some r → includes l s = true.
Proof.
  intros H. destruct s; simpl; by rewrite H.
Qed.

Lemma includes_occurs (l s : str) : includes l s = true ↔ occurs l s.
Proof.
  split.
  - induction s as [|c s IH]; simpl.
    + destruct (strip_prefix l []) as [r|] eqn:E; [|done].
      intros _. exists [], r. by apply (strip_prefix_Some l).
    + destruct (strip_prefix l (c :: s)) as [r|] eqn:E.
      * intros _. exists [], r. by apply (strip_prefix_Some l).
      * intros H. destruct (IH H) as (pre & post & ->).
        by exists (c :: pre), post.
  - intros (pre & post & ->).
    induction pre as [|c pre IH].
    + apply (includes_here l (l ++ post) post), strip_prefix_app.
    + simpl in *. rewrite IH. by destruct (strip_prefix l (c :: pre ++ l ++ post)).
Qed.

Lemma not_occurs_includes (l s : str) : includes l s = false → ¬ occurs l s.
Proof.
  intros H Ho. apply includes_occurs in Ho. congruence.
Qed.

Lemma drop_while_stops (p : N → bool) (s : str) : stops p (drop_while p s).
Proof.
  induction s as [|c s IH]; simpl; [done|].
  destruct (p c) eqn:E; [done|]. exact E.
Qed.

Lemma drop_while_id (p : N → bool) (s : str) : stops p s → drop_while p s = s.
Proof.
  destruct s as [|c s]; simpl; [done|]. by intros ->.
Qed.

Lemma drop_while_app_stop (p : N → bool) (a b : str) :
  forallb p a = true → stops p b → drop_while p (a ++ b) = b.
Proof.
  induction a as [|c a IH]; simpl.
  - intros _. apply drop_while_id.
  - intros [-> Ha]%andb_prop Hb. by apply IH.
Qed.

Lemma drop_while_split (p : N → bool) (s : str) :
  ∃ a, s = a ++ drop_while p s ∧ forallb p a = true.
Proof.
  induction s as [|c s (a & Ha & Hp)]; simpl.
  - by exists [].
  - destruct (p c) eqn:E.
    + exists (c :: a). simpl. rewrite E, Hp. split; [by f_equal|done].
    + by exists [].
Qed.

Lemma take_app_minus (a b : str) : take (length (a ++ b) - length b) (a ++ b) = a.
Proof.
  rewrite length_app.
  replace (length a + length b - length b) with (length a) by lia.
  by rewrite take_app_length.
Qed.

(** ** Facts about the matcher *)

(** A greedy star never gives back what it took when the continuation
    rejects every input that starts inside the class. *)
Lemma star_greedy_commit {R} (cls : N → bool) (k : str → option R) (s : str) :
  (∀ c s', cls c = true → k (c :: s') = None) →
  star_greedy cls k s = k (drop_while cls s).
Proof.
  intros Hk. induction s as [|c s IH]; simpl; [done|].
  destruct (cls c) eqn:E; [|done].
  rewrite IH. destruct (k (drop_while cls s)) eqn:E'; [done|].
  by apply Hk.
Qed.

Lemma star_lazy_sound {R} (cls : N → bool) (k : str → option R) (s : str) (r : R) :
  star_lazy cls k s = Some r →
  ∃ mid rest, s = mid ++ rest ∧ forallb cls mid = true ∧ k rest = Some r.
Proof.
  induction s as [|c s IH]; simpl.
  - destruct (k []) eqn:E; [|done]. intros [= ->]. by exists [], [].
  - destruct (k (c :: s)) eqn:E.
    + intros [= ->]. by exists [], (c :: s).
    + destruct (cls c) eqn:Ec; [|done].
      intros (mid & rest & -> & Hm & Hk)%IH.
      exists (c :: mid), rest. simpl. by rewrite Ec, Hm.
Qed.

Lemma star_lazy_complete {R} (cls : N → bool) (k : str → option R) (mid rest : str) :
  forallb cls mid = true → is_Some (k rest) → is_Some (star_lazy cls k (mid ++ rest)).
Proof.
  intros Hm Hk. induction mid as [|c mid IH]; simpl.
  - destruct Hk as [r Hr]. destruct rest; simpl; rewrite Hr; eauto.
  - apply andb_prop in Hm as [Hc Hm].
    destruct (k (c :: mid ++ rest)); [eauto|].
    rewrite Hc. by apply IH.
Qed.

(** The lazy star stops at the first place where the continuation accepts. *)
Lemma star_lazy_first {R} (cls : N → bool) (k : str → option R) (mid rest : str) (r : R) :
  forallb cls mid = true →
  (∀ a b, mid = a ++ b → b ≠ [] → k (b ++ rest) = None) →
  k rest = Some r →
  star_lazy cls k (mid ++ rest) = Some r.
Proof.
  induction mid as [|c mid IH]; simpl; intros Hm Hk Hr.
  - destruct rest; simpl; by rewrite Hr.
  - apply andb_prop in Hm as [Hc Hm].
    pose proof (Hk [] (c :: mid) eq_refl) as H0. simpl in H0.
    rewrite H0 by done. rewrite Hc.
    apply IH; [done| |done]. intros a b -> Hb. by apply (Hk (c :: a) b).
Qed.

Lemma re_match_here (r : regex) (s rest : str) (caps : list str) :
  re_exec r s = Some (rest, caps) → re_match r s = Some ([], rest, caps).
Proof.
  intros H. destruct s; simpl; by rewrite H.
Qed.

Lemma re_match_None (r : regex) (s : str) :
  re_match r s = None ↔ ∀ pre t, s = pre ++ t → re_exec r t = None.
Proof.
  split.
  - induction s as [|c s IH]; simpl.
    + destruct (re_exec r []) as [[??]|] eqn:E; [done|].
      intros _ pre t H. symmetry in H. apply app_eq_nil in H as [_ ->]. done.
    + destruct (re_exec r (c :: s)) as [[??]|] eqn:E; [done|].
      destruct (re_match r s) as [[[??]?]|] eqn:E'; [done|].
      intros _ [|c' pre] t H; simpl in H.
      * by subst.
      * injection H as -> ->. by eapply IH.
  - intros H. induction s as [|c s IH]; simpl.
    + by rewrite (H [] []).
    + rewrite (H [] (c :: s)) by done.
      rewrite IH; [done|]. intros pre t ->. by apply (H (c :: pre) t).
Qed.

Lemma re_match_Some (r : regex) (s before rest : str) (caps : list str) :
  re_match r s = Some (before, rest, caps) →
  ∃ t, s = before ++ t ∧ re_exec r t = Some (rest, caps) ∧
    ∀ a b, before = a ++ b → b ≠ [] → re_exec r (b ++ t) = None.
Proof.
  revert before. induction s as [|c s IH]; intros before; simpl.
  - destruct (re_exec r []) as [[??]|] eqn:E; [|done].
    intros [= <- <- <-]. exists []. split_and!; [done..|].
    intros a b H. symmetry in H. apply app_eq_nil in H as [_ ->]. done.
  - destruct (re_exec r (c :: s)) as [[??]|] eqn:E.
    + intros [= <- <- <-]. exists (c :: s). split_and!; [done..|].
      intros a b H. symmetry in H. apply app_eq_nil in H as [_ ->]. done.
    + destruct (re_match r s) as [[[b0 r0] c0]|] eqn:E'; [|done].
      intros [= <- <- <-].
      destruct (IH b0 eq_refl) as (t & -> & Ht & Hmin).
      exists t. split_and!; [done..|].
      intros [|x a] b H Hb; simpl in H.
      * by subst.
      * injection H as _ ->. by apply (Hmin a b).
Qed.

(** ** Facts about [toolCallRegex] *)

Lemma callSpan_unfold (nm body rest : str) :
  callSpan nm body ++ rest =
  lit "<start_function_call>call:" ++ nm ++ lit "{" ++ body
    ++ lit "}<end_function_call>" ++ rest.
Proof.
  unfold callSpan, startMarker, endMarker. by rewrite <- !app_assoc.
Qed.

(** Both quantifiers of [toolCallRegex] are followed by a unit outside of
    their class, so the match at a given place is decided without
    backtracking. *)
Lemma re_exec_toolCallRegex (s : str) :
  re_exec toolCallRegex s =
  match strip_prefix (lit "<start_function_call>call:") s with
  | Some (c :: s1) =>
      if is_word c then
        match strip_prefix (lit "{") (drop_while is_word s1) with
        | Some s3 =>
            match strip_prefix (lit "}<end_function_call>") (drop_while not_rbrace s3) with
            | Some s5 =>
                Some (s5,
                      [take (length (c :: s1) - length (drop_while is_word s1)) (c :: s1);
                       take (length s3 - length (drop_while not_rbrace s3)) s3])
            | None => None
            end
        | None => None
        end
      else None
  | _ => None
  end.
Proof.
  unfold re_exec, toolCallRegex. cbn [rmatch].
  destruct (strip_prefix _ s) as [[|c s1]|]; [done| |done].
  destruct (is_word c); [|done].
  rewrite star_greedy_commit.
  - destruct (strip_prefix (lit "{") _) as [s3|]; [|done].
    rewrite star_greedy_commit; [done|].
    intros c' s' Hc'.
    destruct (strip_prefix _ (c' :: s')) eqn:E; [|done].
    apply strip_prefix_Some in E. eval_lit_in E.
    injection E as -> _. by vm_compute in Hc'.
  - intros c' s' Hc'.
    destruct (strip_prefix _ (c' :: s')) eqn:E; [|done].
    apply strip_prefix_Some in E. eval_lit_in E.
    injection E as -> _. by vm_compute in Hc'.
Qed.

Lemma re_exec_toolCallRegex_complete (nm body rest : str) :
  is_name nm → forallb not_rbrace body = true →
  re_exec toolCallRegex (callSpan nm body ++ rest) = Some (rest, [nm; body]).
Proof.
  intros [Hne Hw] Hb. destruct nm as [|c nm]; [done|].
  simpl in Hw. apply andb_prop in Hw as [Hc Hw].
  rewrite re_exec_toolCallRegex, callSpan_unfold, strip_prefix_app.
  rewrite <- app_comm_cons. cbv beta iota. rewrite Hc.
  rewrite (drop_while_app_stop is_word nm) by done.
  rewrite strip_prefix_app.
  rewrite (drop_while_app_stop not_rbrace body) by done.
  rewrite strip_prefix_app.
  do 3 f_equal.
  - apply (take_app_minus (c :: nm)).
  - f_equal. apply take_app_minus.
Qed.

Lemma re_exec_toolCallRegex_sound (s rest : str) (caps : list str) :
  re_exec toolCallRegex s = Some (rest, caps) →
  ∃ nm body, s = callSpan nm body ++ rest ∧ caps = [nm; body] ∧
    is_name nm ∧ forallb not_rbrace body = true.
Proof.
  rewrite re_exec_toolCallRegex.
  destruct (strip_prefix _ s) as [[|c s1]|] eqn:E1; [done| |done].
  destruct (is_word c) eqn:Ec; [|done].
  destruct (drop_while_split is_word s1) as (nm & Hs1 & Hnm).
  destruct (strip_prefix (lit "{") _) as [s3|] eqn:E2; [|done].
  destruct (drop_while_split not_rbrace s3) as (body & Hs3 & Hbody).
  destruct (strip_prefix (lit "}<end_function_call>") _) as [s5|] eqn:E3; [|done].
  intros [= <- <-].
  apply strip_prefix_Some in E1, E2, E3.
  exists (c :: nm), body. split_and!.
  - rewrite callSpan_unfold, E1, <- app_comm_cons. f_equal.
    rewrite Hs1 at 1. f_equal. rewrite E2. f_equal.
    rewrite Hs3 at 1. by rewrite E3.
  - f_equal; [|f_equal].
    + rewrite Hs1 at 1 3. apply (take_app_minus (c :: nm)).
    + rewrite Hs3 at 1 3. apply take_app_minus.
  - split; [done|]. simpl. by rewrite Ec.
  - done.
Qed.

Lemma parseToolCall_None (response : str) :
  parseToolCall response = None ↔ ¬ hasLooseCall response.
Proof.
  unfold parseToolCall. split.
  - destruct (re_match toolCallRegex response) as [[[??]?]|] eqn:E; [done|].
    intros _ (pre & s & post & (nm & body & -> & Hn & Hb) & ->).
    rewrite re_match_None in E.
    specialize (E pre (callSpan nm body ++ post) eq_refl).
    by rewrite re_exec_toolCallRegex_complete in E.
  - intros H.
    destruct (re_match toolCallRegex response) as [[[before rest] caps]|] eqn:E; [|done].
    destruct H. apply re_match_Some in E as (t & -> & Ht & _).
    apply re_exec_toolCallRegex_sound in Ht as (nm & body & -> & _ & Hn & Hb).
    exists before, (callSpan nm body), rest. split; [|done].
    by exists nm, body.
Qed.

(** A call at the front of the response is the one that is decoded. *)
Lemma parseToolCall_callSpan (nm body rest : str) :
  is_name nm → forallb not_rbrace body = true →
  parseToolCall (callSpan nm body ++ rest) =
    Some {| name := nm; parameters := parseParameters body |}.
Proof.
  intros Hn Hb. unfold parseToolCall.
  by rewrite (re_match_here _ _ rest [nm; body])
    by by apply re_exec_toolCallRegex_complete.
Qed.


(** ** Facts about occurrences *)

Lemma occurs_app (l a x y : str) : occurs l a → occurs l (x ++ a ++ y).
Proof.
  intros (pre & post & ->). exists (x ++ pre), (post ++ y).
  by rewrite <- !app_assoc.
Qed.

Lemma occurs_app_l (l a y : str) : occurs l a → occurs l (a ++ y).
Proof. apply (occurs_app l a []). Qed.

Lemma occurs_app_r (l a x : str) : occurs l a → occurs l (x ++ a).
Proof.
  intros H. apply (occurs_app l a x []) in H. by rewrite app_nil_r in H.
Qed.

Lemma occurs_refl (l : str) : occurs l l.
Proof. exists [], []. by rewrite app_nil_r. Qed.

Lemma occurs_joinComma (l p : str) (ps : list str) :
  occurs l p → occurs l (joinComma (p :: ps)).
Proof.
  intros H. destruct ps; simpl; [done|]. by apply occurs_app_l.
Qed.

(** Every span of the grammar holds an empty pair of braces or an escape
    marker. *)
Lemma grammarCall_occurs (s : str) :
  grammarCall s → occurs (lit "{}") s ∨ occurs escapeMarker s.
Proof.
  intros (nm & body & -> & _ & [->|(ps & Hne & Hps & ->)]).
  - left. unfold callSpan. do 3 apply occurs_app_r.
    by exists [], endMarker.
  - right. destruct ps as [|p ps]; [done|].
    apply Forall_cons in Hps as [(key & v & ->) _].
    unfold callSpan.
    do 4 apply occurs_app_r. apply occurs_app_l, occurs_joinComma.
    unfold encodeParam. simpl fst. simpl snd.
    do 2 apply occurs_app_r. apply occurs_app_l, occurs_refl.
Qed.

(** ** The dispatcher *)

(** C6: the scenario of the specification.  The input decodes to a call
    named [show_notification] with the single parameter [message] = [Hi];
    dispatching it invokes the notification callback, once, with the default
    title [Notification] and the default type [info], and (the callback
    returning) yields a successful outcome with message
    [Notification shown: Hi]; processing the input makes the same
    invocation. *)
Theorem notification_scenario (options : UseToolCallsOptions) :
  parseToolCall notificationInput =
    Some {| name := lit "show_notification";
            parameters := {[ lit "message" := lit "Hi" ]} |}
  ∧ executeToolCall options
      {| name := lit "show_notification";
         parameters := {[ lit "message" := lit "Hi" ]} |} =
    ([Notification (lit "Notification") (lit "Hi") (lit "info")],
     if onNotification options (lit "Notification") (lit "Hi") (lit "info")
     then Returned
            {| success := true;
               message := lit "Notification shown: Hi";
               action := Some (lit "show_notification(" ++ quote ++ lit "Notification"
                               ++ quote ++ lit ", " ++ quote ++ lit "Hi" ++ quote
                               ++ lit ", " ++ quote ++ lit "info" ++ quote ++ lit ")") |}
     else Raised)
  ∧ fst (processResponse options notificationInput) =
      [Notification (lit "Notification") (lit "Hi") (lit "info")].
Proof.
  destruct options as [theme notify navigate].
  split_and!; [by vm_compute| |]; vm_compute; by destruct (notify _ _ _).
Qed.

(** C7: a call whose name is none of the three known names is answered
    with a failed outcome [Unknown function: name]; no callback is invoked and
    the dispatcher returns (it does not raise), whatever the callbacks are. *)
Theorem unknown_function (options : UseToolCallsOptions) (call : ToolCall) :
  name call ≠ lit "change_theme" →
  name call ≠ lit "show_notification" →
  name call ≠ lit "navigate_to_screen" →
  executeToolCall options call =
    ([], Returned {| success := false;
                     message := lit "Unknown function: " ++ name call;
                     action := None |}).
Proof.
  intros H1 H2 H3. unfold executeToolCall.
  by rewrite !decide_False by done.
Qed.

Lemma unknown_function_witness :
  executeToolCall quietOptions
    {| name := lit "delete_everything"; parameters := ∅ |} =
    ([], Returned {| success := false;
                     message := lit "Unknown function: delete_everything";
                     action := None |}).
Proof.
  apply (unknown_function quietOptions
           {| name := lit "delete_everything"; parameters := ∅ |});
    by vm_compute.
Defined.

Lemma get_property_empty (k key : str) (m : dict) :
  get_property key (<[k := []]> m) = get_property key (delete k m)
  ∨ (get_property key (<[k := []]> m) = Some []
     ∧ get_property key (delete k m) = None).
Proof.
  unfold get_property. destruct (decide (k = key)) as [->|Hne].
  - right. by rewrite lookup_insert_eq, lookup_delete_eq.
  - left. by rewrite lookup_insert_ne, lookup_delete_ne.
Qed.

(** The dispatcher cannot tell a parameter that is the empty string from a
    parameter that is absent. *)
Lemma executeToolCall_empty (options : UseToolCallsOptions) (nm k : str) (m : dict) :
  executeToolCall options {| name := nm; parameters := <[k := []]> m |} =
  executeToolCall options {| name := nm; parameters := delete k m |}.
Proof.
  unfold executeToolCall. cbn [name parameters].
  repeat case_decide; try done.
  - destruct (get_property_empty k (lit "theme") m) as [->|[-> ->]]; done.
  - destruct (get_property_empty k (lit "title") m) as [->|[-> ->]];
    destruct (get_property_empty k (lit "type") m) as [->|[-> ->]];
    destruct (get_property_empty k (lit "message") m) as [->|[-> ->]]; done.
  - destruct (get_property_empty k (lit "screen") m) as [->|[-> ->]]; done.
Qed.

(** C9: at dispatch time a parameter that is the empty string is treated
    exactly like an absent one (putting the empty string under a key gives the
    same dispatch as deleting the key): an empty [theme], [message] or
    [screen] fails with the matching [Missing ... parameter] message and no
    callback is invoked, and an empty [title] or [type] is replaced by the
    default [Notification] or [info]. *)
Theorem empty_parameter_is_absent (options : UseToolCallsOptions)
    (nm k : str) (m : dict) (c : N) (text : str) :
  executeToolCall options {| name := nm; parameters := <[k := []]> m |} =
    executeToolCall options {| name := nm; parameters := delete k m |}
  ∧ executeToolCall options
      {| name := lit "change_theme"; parameters := <[lit "theme" := []]> m |} =
    ([], Returned {| success := false; message := lit "Missing theme parameter";
                     action := None |})
  ∧ executeToolCall options
      {| name := lit "show_notification"; parameters := <[lit "message" := []]> m |} =
    ([], Returned {| success := false; message := lit "Missing message parameter";
                     action := None |})
  ∧ executeToolCall options
      {| name := lit "navigate_to_screen"; parameters := <[lit "screen" := []]> m |} =
    ([], Returned {| success := false; message := lit "Missing screen parameter";
                     action := None |})
  ∧ executeToolCall options
      {| name := lit "show_notification";
         parameters := <[lit "title" := []]> (<[lit "type" := []]>
                         (<[lit "message" := c :: text]> m)) |} =
    ([Notification (lit "Notification") (c :: text) (lit "info")],
     if onNotification options (lit "Notification") (c :: text) (lit "info")
     then Returned
            {| success := true;
               message := lit "Notification shown: " ++ c :: text;
               action := Some (lit "show_notification(" ++ quote ++ lit "Notification"
                               ++ quote ++ lit ", " ++ quote ++ c :: text ++ quote
                               ++ lit ", " ++ quote ++ lit "info" ++ quote ++ lit ")") |}
     else Raised).
Proof.
  split_and!.
  - apply executeToolCall_empty.
  - unfold executeToolCall, get_property. cbn [name parameters].
    rewrite decide_True by done. by rewrite lookup_insert_eq.
  - unfold executeToolCall, get_property. cbn [name parameters].
    rewrite decide_False by by vm_compute. rewrite decide_True by done.
    by rewrite lookup_insert_eq.
  - unfold executeToolCall, get_property. cbn [name parameters].
    rewrite !decide_False by by vm_compute. rewrite decide_True by done.
    by rewrite lookup_insert_eq.
  - unfold executeToolCall, get_property. cbn [name parameters].
    rewrite decide_False by by vm_compute. rewrite decide_True by done.
    rewrite lookup_insert_eq.
    rewrite (lookup_insert_ne _ (lit "title") (lit "type")) by by vm_compute.
    rewrite lookup_insert_eq.
    rewrite !(lookup_insert_ne _ _ (lit "message")) by by vm_compute.
    rewrite lookup_insert_eq.
    done.
Qed.

(** ** Responses without a call *)

Lemma or_else_same (s : str) : or_else (Some s) s = s.
Proof. by destruct s. Qed.

(** C3 (as stated, refuted): [bareValueInput] holds the start marker and no
    substring of the call grammar (its parameter is not written between
    escape markers), and yet it is decoded as a call, the call is dispatched
    and the prose is empty instead of the raw text. *)
Lemma bare_value_is_decoded :
  hasToolCall bareValueInput = true
  ∧ ¬ hasGrammarCall bareValueInput
  ∧ parseToolCall bareValueInput =
      Some {| name := lit "change_theme";
              parameters := {[ lit "theme" := lit "dark" ]} |}
  ∧ processResponse quietOptions bareValueInput =
      ([ThemeChange (lit "dark")],
       Returned
         {| toolCall := Some {| name := lit "change_theme";
                                parameters := {[ lit "theme" := lit "dark" ]} |};
            result := Some {| success := true;
                              message := lit "Theme changed to dark";
                              action := Some (lit "change_theme(dark)") |};
            textResponse := [] |}).
Proof.
  split_and!; [by vm_compute| |by vm_compute..].
  intros (pre & s & post & Hs & E).
  destruct (grammarCall_occurs s Hs) as [H|H];
    apply (occurs_app _ _ pre post) in H; rewrite <- E in H;
    apply includes_occurs in H; by vm_compute in H.
Qed.

(** C3 (amended): a response that holds the start marker and no substring
    of the form the decoder accepts (the frame
    [<start_function_call>call:NAME{BODY}<end_function_call>] with a name of
    word characters and any body without a closing brace) is decoded as no
    call; processing it invokes no callback and returns the raw text, which
    is also the text of the assistant message. *)
Theorem no_call_is_prose (options : UseToolCallsOptions) (response : str) :
  hasToolCall response = true →
  ¬ hasLooseCall response →
  parseToolCall response = None
  ∧ processResponse options response =
      ([], Returned {| toolCall := None; result := None; textResponse := response |})
  ∧ assistantContent response
      {| toolCall := None; result := None; textResponse := response |} = response.
Proof.
  intros _ H%parseToolCall_None. split_and!.
  - done.
  - unfold processResponse. by rewrite H.
  - apply or_else_same.
Qed.

Lemma no_call_is_prose_witness :
  parseToolCall truncatedInput = None
  ∧ processResponse quietOptions truncatedInput =
      ([], Returned {| toolCall := None; result := None;
                       textResponse := truncatedInput |})
  ∧ assistantContent truncatedInput
      {| toolCall := None; result := None; textResponse := truncatedInput |}
    = truncatedInput.
Proof.
  apply (no_call_is_prose quietOptions truncatedInput).
  - by vm_compute.
  - apply parseToolCall_None. by vm_compute.
Defined.

(** ** The model lifecycle *)

Section Lifecycle.
Import LLMContext.

(** The download callbacks touch neither the status nor the handle. *)
Lemma reports_view (events : list (N * N)) (s : LLMState) :
  Forall (λ st, status st = status s ∧ llamaContextRef st = llamaContextRef s)
         (reports events s).
Proof.
  revert s. induction events as [|ev events IH]; intros s; simpl; [done|].
  constructor; [done|].
  eapply Forall_impl; [apply IH|]. by intros st [-> ->].
Qed.

Lemma last_Forall {A} (P : A → Prop) (l : list A) (d : A) :
  P d → Forall P l → P (List.last l d).
Proof.
  intros Hd H. induction H as [|x l Hx Hl IH]; [done|].
  destruct l; [done|]. apply IH.
Qed.

Lemma after_Forall (P : LLMState → Prop) (op : operation) (s : LLMState) :
  Forall P (run op s) → P s → P (after op s).
Proof. intros H Hs. unfold after. by apply last_Forall. Qed.

(** Only a successful load makes the status [ready], and it stores the
    handle first. *)
Lemma run_readyHasHandle (op : operation) (s : LLMState) :
  readyHasHandle s → Forall readyHasHandle (run op s).
Proof.
  intros Hs. destruct op as [| |fe fs events dl|fe rel init|rel|];
    cbv beta iota zeta delta [run].
  - by repeat constructor.
  - by repeat constructor.
  - destruct (_ && _); [by repeat constructor|].
    set (s1 := setDownloadProgress Zero _).
    assert (Forall (λ st, status st = Downloading) (s1 :: reports events s1)) as Hr.
    { constructor; [done|].
      eapply Forall_impl; [apply reports_view|]. by intros st [-> _]. }
    apply Forall_app. split.
    + eapply Forall_impl; [apply Hr|]. by intros st Hst ?; congruence.
    + constructor; [|done]. by destruct dl as [|[[|]|]].
  - destruct fe; simpl; [|by repeat constructor].
    destruct (llamaContextRef s), rel, init; by repeat constructor.
  - destruct rel; by repeat constructor.
  - by repeat constructor.
Qed.

Ltac each_state :=
  repeat first [apply Forall_nil_2 | apply Forall_cons_2].

Lemma handleIffReady_none (s : LLMState) :
  llamaContextRef s = None → status s ≠ Ready → handleIffReady s.
Proof. intros H1 H2. split; [by rewrite H1|done]. Qed.

Lemma handleIffReady_some (s : LLMState) :
  llamaContextRef s ≠ None → status s = Ready → handleIffReady s.
Proof. intros H1 H2. by split. Qed.

Lemma run_handleIffReady (op : operation) (s : LLMState) :
  handleIffReady s →
  (needsNoHandle op = true → llamaContextRef s = None) →
  Forall handleIffReady (run op s).
Proof.
  intros Hs Hg. destruct op as [| |fe fs events dl|fe rel init|rel|];
    cbv beta iota zeta delta [run]; simpl in Hg.
  - each_state. apply handleIffReady_none; [by apply Hg|done].
  - each_state. apply handleIffReady_none; [by apply Hg|done].
  - destruct (_ && _).
    { each_state. apply handleIffReady_none; [by apply Hg|done]. }
    set (s1 := setDownloadProgress Zero _).
    assert (Forall (λ st, status st = Downloading ∧ llamaContextRef st = None)
                   (s1 :: reports events s1)) as Hr.
    { constructor; [split; [done|by apply Hg]|].
      eapply Forall_impl; [apply reports_view|].
      intros st [-> ->]. split; [done|by apply Hg]. }
    apply Forall_app. split.
    + eapply Forall_impl; [apply Hr|].
      intros st [H1 H2]. apply handleIffReady_none; [done|by rewrite H1].
    + constructor; [|done].
      pose proof (last_Forall _ _ s1 (Forall_inv Hr) Hr) as [_ H].
      set (s2 := List.last _ _) in *. clearbody s2.
      by destruct dl as [|[[|]|]]; apply handleIffReady_none.
  - simpl. rewrite Hg by done.
    destruct fe; simpl.
    + destruct init; each_state;
        (apply handleIffReady_none; simpl; [by apply Hg|done])
        || (by apply handleIffReady_some).
    + each_state. apply handleIffReady_none; [by apply Hg|done].
  - destruct rel; by each_state.
  - by each_state.
Qed.

Lemma trace_readyHasHandle (ops : list operation) (s : LLMState) :
  readyHasHandle s → Forall readyHasHandle (trace ops s).
Proof.
  revert s. induction ops as [|op ops IH]; intros s Hs; simpl; [done|].
  pose proof (run_readyHasHandle op s Hs) as H.
  apply Forall_app. split; [done|]. by apply IH, after_Forall.
Qed.

Lemma trace_handleIffReady (ops : list operation) (s : LLMState) :
  handleIffReady s → gated ops s → Forall handleIffReady (trace ops s).
Proof.
  revert s. induction ops as [|op ops IH]; intros s Hs Hg; simpl; [done|].
  destruct Hg as [Hop Hg].
  pose proof (run_handleIffReady op s Hs Hop) as H.
  apply Forall_app. split; [done|]. by apply IH; [apply after_Forall|].
Qed.

(** What the interface offers is gated: outside of [ready] no handle is
    held, and in [ready] none of the four calls is offered. *)
Lemma offeredAll_gated (ops : list operation) (s : LLMState) :
  handleIffReady s → offeredAll ops s → gated ops s.
Proof.
  revert s. induction ops as [|op ops IH]; intros s Hs; simpl; [done|].
  intros [Hop Hall].
  assert (needsNoHandle op = true → llamaContextRef s = None) as Hg.
  { intros Hn. unfold handleIffReady in Hs.
    destruct (llamaContextRef s) eqn:E; [|done].
    assert (status s = Ready) as Hr by (apply Hs; done).
    destruct op; simpl in Hop, Hn; try done;
      unfold isModelReady in Hop; rewrite ?E, ?Hr in Hop; done. }
  split; [done|]. apply IH; [|done].
  apply after_Forall; [|done]. by apply run_handleIffReady.
Qed.

(** C1 (as stated, refuted): after a load that succeeds the download button
    ([askToDownload]) sets the status to [asking] and leaves the handle in
    place, so a handle is held outside of [ready]. *)
Lemma ask_while_ready_keeps_handle :
  List.last (trace loadThenAsk initial) initial =
    {| status := Asking; downloadProgress := Zero; error := None;
       llamaContextRef := Some ctx0 |}
  ∧ ¬ Forall handleIffReady (trace loadThenAsk initial).
Proof.
  split; [done|].
  intros H. apply Forall_app in H as [_ H]. apply Forall_inv in H.
  destruct H as [H _]. by specialize (H ltac:(done)).
Qed.

(** C1 (amended): from the initial state, after every step of every
    sequence of calls, status [ready] implies that a handle is held; and in
    every sequence in which [askToDownload], [cancelDownload],
    [confirmDownload] and [loadModel] are called only while no handle is
    held, in particular in every sequence the interface offers, the handle is
    held if and only if the status is [ready]. *)
Theorem lifecycle_invariant (ops : list operation) :
  Forall readyHasHandle (trace ops initial)
  ∧ (gated ops initial → Forall handleIffReady (trace ops initial))
  ∧ (offeredAll ops initial → Forall handleIffReady (trace ops initial)).
Proof.
  assert (handleIffReady initial) as H0 by done.
  split_and!.
  - by apply trace_readyHasHandle.
  - by apply trace_handleIffReady.
  - intros H. by apply trace_handleIffReady, offeredAll_gated.
Qed.

Lemma lifecycle_invariant_witness :
  Forall handleIffReady (trace downloadAndLoad initial)
  ∧ status (List.last (trace downloadAndLoad initial) initial) = Ready.
Proof.
  split; [|done].
  apply (lifecycle_invariant downloadAndLoad). by vm_compute.
Defined.

(** Releasing twice is releasing once. *)
Lemma releaseModel_idempotent (s : LLMState) :
  after (releaseModel ReleaseReturns) (after (releaseModel ReleaseReturns) s) =
  after (releaseModel ReleaseReturns) s.
Proof. done. Qed.

(** A release leaves the progress and the error as they are and, when the
    engine throws, everything. *)
Lemma releaseModel_frame (release : releaseEnd) (s : LLMState) :
  downloadProgress (after (releaseModel release) s) = downloadProgress s
  ∧ error (after (releaseModel release) s) = error s
  ∧ llamaContextRef (after (releaseModel ReleaseReturns) s) = None
  ∧ status (after (releaseModel ReleaseReturns) s) = Downloaded.
Proof. by destruct release. Qed.

(** C8 (the code at the failing input): in the initial state no handle is
    held, and a release changes the status from [idle] to [downloaded]. *)
Lemma release_without_handle_sets_downloaded :
  llamaContextRef initial = None
  ∧ after (releaseModel ReleaseReturns) initial =
      {| status := Downloaded; downloadProgress := Zero; error := None;
         llamaContextRef := None |}
  ∧ after (releaseModel ReleaseReturns) initial ≠ initial.
Proof. done. Qed.
End Lifecycle.

(** ** Facts about the removal of matches *)

Lemma remove_from_pending (r : regex) (m rest : str) :
  remove_from r (length m) (m ++ rest) = remove_from r 0 rest.
Proof.
  induction m as [|c m IH]; [done|]. simpl. apply IH.
Qed.

Lemma remove_all_match (r : regex) (m rest : str) (caps : list str) :
  m ≠ [] → re_exec r (m ++ rest) = Some (rest, caps) →
  remove_all r (m ++ rest) = remove_all r rest.
Proof.
  intros Hm H. destruct m as [|c m]; [done|].
  unfold remove_all. rewrite <- app_comm_cons in *.
  cbn [remove_from]. rewrite H.
  replace (length (c :: m ++ rest) - length rest) with (S (length m))
    by (simpl; rewrite length_app; lia).
  apply remove_from_pending.
Qed.

Lemma remove_all_no_match (r : regex) (c : N) (s : str) :
  re_exec r (c :: s) = None → remove_all r (c :: s) = c :: remove_all r s.
Proof.
  intros H. unfold remove_all. cbn [remove_from]. by rewrite H.
Qed.

Lemma remove_all_nil (r : regex) : remove_all r [] = [].
Proof. done. Qed.

(** Text in which no match starts is kept as it is. *)
Lemma remove_all_app (r : regex) (p s : str) :
  (∀ a b, p = a ++ b → b ≠ [] → re_exec r (b ++ s) = None) →
  remove_all r (p ++ s) = p ++ remove_all r s.
Proof.
  induction p as [|c p IH]; intros H; [done|].
  rewrite <- !app_comm_cons.
  rewrite remove_all_no_match by by apply (H [] (c :: p)).
  f_equal. apply IH. intros a b -> Hb. by apply (H (c :: a) b).
Qed.

Lemma remove_all_id (r : regex) (s : str) :
  re_match r s = None → remove_all r s = s.
Proof.
  rewrite re_match_None. intros H.
  rewrite <- (app_nil_r s) at 1. rewrite remove_all_app; [by rewrite app_nil_r|].
  intros a b -> _. rewrite app_nil_r. by apply (H a b).
Qed.

(** ** Facts about markers *)

(** A marker whose first unit does not come back in it cannot lie across
    the end of a text that is followed by nothing or by that unit. *)
Lemma strip_prefix_inside (c : N) (l b rest r : str) :
  c ∉ l → b ≠ [] → (rest = [] ∨ ∃ rest', rest = c :: rest') →
  strip_prefix (c :: l) (b ++ rest) = Some r →
  ∃ b', b = (c :: l) ++ b'.
Proof.
  intros Hc Hb Hrest H%strip_prefix_Some.
  apply app_eq_inv in H as [(k & -> & _)|(k & Hk & ->)]; [by exists k|].
  destruct k as [|x k]; [exists []; by rewrite app_nil_r in *|].
  destruct Hrest as [?|(rest' & [= -> _])]; [done|].
  destruct b as [|y b]; [done|]. injection Hk as -> ->.
  destruct Hc. apply elem_of_app. right. apply elem_of_cons. by left.
Qed.

Lemma startMarker_inside (b rest r : str) :
  b ≠ [] → (rest = [] ∨ ∃ rest', rest = 60%N :: rest') →
  strip_prefix startMarker (b ++ rest) = Some r → occurs startMarker b.
Proof.
  intros Hb Hrest H.
  apply (strip_prefix_inside 60 (lit "start_function_call>")) in H as [b' ->];
    [by exists [], b'|by apply (bool_decide_unpack _); vm_compute|done..].
Qed.

Lemma endMarker_inside (b rest r : str) :
  b ≠ [] → (rest = [] ∨ ∃ rest', rest = 60%N :: rest') →
  strip_prefix endMarker (b ++ rest) = Some r → occurs endMarker b.
Proof.
  intros Hb Hrest H.
  apply (strip_prefix_inside 60 (lit "end_function_call>")) in H as [b' ->];
    [by exists [], b'|by apply (bool_decide_unpack _); vm_compute|done..].
Qed.

(** ** Facts about [callSpanRegex] *)

Lemma re_exec_callSpanRegex (s : str) :
  re_exec callSpanRegex s =
  match strip_prefix startMarker s with
  | Some s1 => star_lazy dot afterEnd s1
  | None => None
  end.
Proof. done. Qed.

Lemma re_exec_callSpanRegex_sound (s rest : str) (caps : list str) :
  re_exec callSpanRegex s = Some (rest, caps) →
  ∃ mid, s = startMarker ++ mid ++ endMarker ++ rest ∧ forallb dot mid = true.
Proof.
  rewrite re_exec_callSpanRegex.
  destruct (strip_prefix startMarker s) as [s1|] eqn:E; [|done].
  apply strip_prefix_Some in E as ->.
  intros (mid & t & -> & Hmid & Ht)%star_lazy_sound.
  unfold afterEnd in Ht.
  destruct (strip_prefix endMarker t) as [t'|] eqn:E; [|done].
  apply strip_prefix_Some in E as ->. injection Ht as -> _.
  by exists mid.
Qed.

Lemma re_exec_callSpanRegex_complete (mid rest : str) :
  forallb dot mid = true →
  is_Some (re_exec callSpanRegex (startMarker ++ mid ++ endMarker ++ rest)).
Proof.
  intros Hmid. rewrite re_exec_callSpanRegex, strip_prefix_app.
  apply star_lazy_complete; [done|].
  unfold afterEnd. rewrite strip_prefix_app. eauto.
Qed.

(** The match ends at the nearest end marker. *)
Lemma re_exec_callSpanRegex_nearest (mid rest : str) :
  forallb dot mid = true → ¬ occurs endMarker mid →
  re_exec callSpanRegex (startMarker ++ mid ++ endMarker ++ rest) = Some (rest, []).
Proof.
  intros Hmid Hno. rewrite re_exec_callSpanRegex, strip_prefix_app.
  apply star_lazy_first; [done| |].
  - intros a b -> Hb. unfold afterEnd.
    destruct (strip_prefix endMarker (b ++ endMarker ++ rest)) eqn:E; [|done].
    destruct Hno. apply occurs_app_r.
    apply (endMarker_inside b (endMarker ++ rest) l); [done| |done].
    right. by eexists.
  - unfold afterEnd. by rewrite strip_prefix_app.
Qed.

Lemma hasLineSpan_re_match (s : str) :
  hasLineSpan s ↔ re_match callSpanRegex s ≠ None.
Proof.
  split.
  - intros (pre & span & post & (mid & -> & Hmid) & ->) E.
    rewrite re_match_None in E.
    specialize (E pre ((startMarker ++ mid ++ endMarker) ++ post) eq_refl).
    rewrite <- !app_assoc in E.
    destruct (re_exec_callSpanRegex_complete mid post Hmid) as [? H]. congruence.
  - destruct (re_match callSpanRegex s) as [[[before rest] caps]|] eqn:E; [|done].
    intros _. apply re_match_Some in E as (t & -> & Ht & _).
    apply re_exec_callSpanRegex_sound in Ht as (mid & -> & Hmid).
    exists before, (startMarker ++ mid ++ endMarker), rest.
    split; [by exists mid|]. by rewrite <- !app_assoc.
Qed.

Lemma not_hasLineSpan (s : str) :
  ¬ hasLineSpan s ↔ re_match callSpanRegex s = None.
Proof.
  split.
  - intros H. destruct (re_match callSpanRegex s) eqn:E; [|done].
    destruct H. apply hasLineSpan_re_match. by rewrite E.
  - by intros E H%hasLineSpan_re_match.
Qed.

(** ** Facts about [trim] *)

Lemma drop_while_idemp (p : N → bool) (s : str) :
  drop_while p (drop_while p s) = drop_while p s.
Proof. apply drop_while_id, drop_while_stops. Qed.

Lemma trimEnd_idemp (s : str) : trimEnd (trimEnd s) = trimEnd s.
Proof.
  unfold trimEnd. by rewrite reverse_involutive, drop_while_idemp.
Qed.

Lemma stops_trimEnd (s : str) :
  stops is_white_space s → stops is_white_space (trimEnd s).
Proof.
  unfold trimEnd.
  destruct (drop_while_split is_white_space (reverse s)) as (a & Ha & _).
  apply (f_equal reverse) in Ha.
  rewrite reverse_involutive, reverse_app in Ha.
  destruct (reverse (drop_while is_white_space (reverse s))) as [|c t]; [done|].
  rewrite Ha. done.
Qed.

Lemma trim_idemp (s : str) : trim (trim s) = trim s.
Proof.
  unfold trim. unfold trimStart at 1.
  rewrite (drop_while_id _ (trimEnd (trimStart s))).
  - apply trimEnd_idemp.
  - apply stops_trimEnd, drop_while_stops.
Qed.

(** ** The prose of a response *)

(** Without a span on one line the prose is the trimmed text. *)
Lemma extractNonToolText_fixed (text : str) :
  ¬ hasLineSpan text → extractNonToolText text = trim text.
Proof.
  intros H%not_hasLineSpan. unfold extractNonToolText.
  by rewrite remove_all_id.
Qed.

(** C4 (as stated, refuted): removing the span of [nestedInput] joins the
    two halves of a start marker into a new span, which a second application
    removes. *)
Lemma extractNonToolText_not_idempotent :
  extractNonToolText nestedInput = lit "<start_function_call>y<end_function_call>"
  ∧ extractNonToolText (extractNonToolText nestedInput) = []
  ∧ extractNonToolText (extractNonToolText nestedInput) ≠ extractNonToolText nestedInput.
Proof. by vm_compute. Qed.

(** C4 (amended): on every text whose prose holds no further span (a start
    marker followed on the same line by an end marker) a second application
    of [extractNonToolText] changes nothing. *)
Theorem extractNonToolText_idempotent (text : str) :
  ¬ hasLineSpan (extractNonToolText text) →
  extractNonToolText (extractNonToolText text) = extractNonToolText text.
Proof.
  intros H. rewrite extractNonToolText_fixed by done.
  apply trim_idemp.
Qed.

Lemma extractNonToolText_idempotent_witness :
  extractNonToolText (extractNonToolText proseAroundInput) =
  extractNonToolText proseAroundInput.
Proof.
  apply (extractNonToolText_idempotent proseAroundInput).
  apply not_hasLineSpan. by vm_compute.
Defined.

(** ** The condition of idempotence is the exact one *)

Lemma remove_from_length (r : regex) (n : nat) (s : str) :
  length (remove_from r n s) ≤ length s.
Proof.
  revert n. induction s as [|c s IH]; intros [|n]; simpl; try lia.
  - destruct (re_exec r (c :: s)) as [[rest ?]|].
    + destruct (S (length s) - length rest) as [|k]; simpl.
      * specialize (IH 0). lia.
      * specialize (IH k). lia.
    + simpl. specialize (IH 0). lia.
  - specialize (IH n). lia.
Qed.

Lemma remove_all_shorter (s : str) :
  hasLineSpan s → length (remove_all callSpanRegex s) < length s.
Proof.
  intros H%hasLineSpan_re_match.
  destruct (re_match callSpanRegex s) as [[[before rest] caps]|] eqn:E; [|done].
  apply re_match_Some in E as (t & -> & Ht & Hmin).
  rewrite remove_all_app by done.
  pose proof Ht as (mid & -> & _)%re_exec_callSpanRegex_sound.
  replace (startMarker ++ mid ++ endMarker ++ rest)
    with ((startMarker ++ mid ++ endMarker) ++ rest) in * by by rewrite <- !app_assoc.
  rewrite (remove_all_match _ _ _ caps) by (done || by vm_compute).
  pose proof (remove_from_length callSpanRegex 0 rest) as Hl.
  unfold remove_all. rewrite !length_app.
  assert (0 < length startMarker) by (vm_compute; lia). lia.
Qed.

Lemma drop_while_length (p : N → bool) (s : str) :
  length (drop_while p s) ≤ length s.
Proof.
  destruct (drop_while_split p s) as (a & Ha & _).
  rewrite Ha at 2. rewrite length_app. lia.
Qed.

Lemma trim_length (s : str) : length (trim s) ≤ length s.
Proof.
  unfold trim, trimEnd, trimStart. rewrite length_reverse.
  etrans; [apply drop_while_length|]. rewrite length_reverse.
  apply drop_while_length.
Qed.

(** When a span is left in the prose, a second application changes it. *)
Lemma extractNonToolText_changes (text : str) :
  hasLineSpan (extractNonToolText text) →
  extractNonToolText (extractNonToolText text) ≠ extractNonToolText text.
Proof.
  intros H%remove_all_shorter E. apply (f_equal length) in E.
  unfold extractNonToolText at 1 in E.
  pose proof (trim_length (remove_all callSpanRegex (extractNonToolText text))). lia.
Qed.

(** No match of [callSpanRegex] starts inside a text without start marker
    that is followed by nothing or by a marker. *)
Lemma no_span_inside (p rest : str) :
  ¬ occurs startMarker p → (rest = [] ∨ ∃ rest', rest = 60%N :: rest') →
  ∀ a b, p = a ++ b → b ≠ [] → re_exec callSpanRegex (b ++ rest) = None.
Proof.
  intros Hp Hrest a b -> Hb. rewrite re_exec_callSpanRegex.
  destruct (strip_prefix startMarker (b ++ rest)) eqn:E; [|done].
  destruct Hp. apply occurs_app_r. by apply (startMarker_inside b rest l).
Qed.

Lemma remove_all_span (mid rest : str) :
  forallb dot mid = true → ¬ occurs endMarker mid →
  remove_all callSpanRegex (startMarker ++ mid ++ endMarker ++ rest) =
  remove_all callSpanRegex rest.
Proof.
  intros Hmid Hno.
  replace (startMarker ++ mid ++ endMarker ++ rest)
    with ((startMarker ++ mid ++ endMarker) ++ rest) by by rewrite <- !app_assoc.
  apply (remove_all_match _ _ _ []); [by vm_compute|].
  rewrite <- !app_assoc. by apply re_exec_callSpanRegex_nearest.
Qed.

(** Every span on one line is removed, not only the first one: of a
    response made of prose and such spans in turn, the prose is what is
    left. *)
Lemma remove_all_spans (p0 : str) (items : list (str * str)) :
  ¬ occurs startMarker p0 →
  Forall (λ sp, nearestLineSpan sp.1 ∧ ¬ occurs startMarker sp.2) items →
  remove_all callSpanRegex (interleave p0 items) = p0 ++ concat items.*2.
Proof.
  unfold interleave. intros Hp0 Hitems. revert p0 Hp0.
  induction Hitems as [|[span p] items [(mid & Hs & Hmid & Hno) Hp] _ IH];
    intros p0 Hp0; cbn [fmap list_fmap concat fst snd] in *.
  - rewrite remove_all_app; [done|]. apply no_span_inside; [done|by left].
  - subst span. rewrite <- !app_assoc.
    rewrite remove_all_app
      by (apply no_span_inside; [done|right; by eexists]).
    f_equal. rewrite remove_all_span by done. by apply IH.
Qed.

Lemma extractNonToolText_spans (p0 : str) (items : list (str * str)) :
  ¬ occurs startMarker p0 →
  Forall (λ sp, nearestLineSpan sp.1 ∧ ¬ occurs startMarker sp.2) items →
  extractNonToolText (interleave p0 items) = trim (p0 ++ concat items.*2).
Proof.
  intros. unfold extractNonToolText. by rewrite remove_all_spans.
Qed.

(** C10 (the code at the failing input): [twoCallsInput] is two calls one
    after the other, each a span from a start marker to the nearest end
    marker, and the second one, which the decoder accepts when it stands
    alone, has a line feed in its value.  Only the first span is removed: the
    prose is the whole second span, and it becomes the text of the assistant
    message. *)
Lemma line_feed_span_is_kept :
  nearestSpan firstCall ∧ nearestSpan secondCall
  ∧ grammarCall secondCall
  ∧ parseToolCall secondCall =
      Some {| name := lit "show_notification";
              parameters := {[ lit "message" :=
                                 lit "line one" ++ [10%N] ++ lit "line two" ]} |}
  ∧ extractNonToolText twoCallsInput = secondCall
  ∧ processResponse quietOptions twoCallsInput =
      ([ThemeChange (lit "dark")],
       Returned
         {| toolCall := Some {| name := lit "change_theme";
                                parameters := {[ lit "theme" := lit "dark" ]} |};
            result := Some {| success := true;
                              message := lit "Theme changed to dark";
                              action := Some (lit "change_theme(dark)") |};
            textResponse := secondCall |}).
Proof.
  split_and!.
  - exists (lit "call:change_theme{theme:<escape>dark<escape>}").
    split; [done|]. by apply not_occurs_includes.
  - exists (lit "call:show_notification{message:<escape>line one" ++ [10%N]
            ++ lit "line two<escape>}").
    split; [done|]. by apply not_occurs_includes.
  - exists (lit "show_notification"),
      (lit "message:<escape>line one" ++ [10%N] ++ lit "line two<escape>").
    split_and!; [done..|]. right.
    exists [encodeParam (lit "message", lit "line one" ++ [10%N] ++ lit "line two")].
    split_and!; [done| |done].
    constructor; [|done]. by eexists _, _.
  - by vm_compute.
  - by vm_compute.
  - by vm_compute.
Qed.

(** ** The parameters of a call *)

Lemma parseParameters_split (body : str) :
  parseParameters body = foldl parsePair ∅ (split 44 body).
Proof. by destruct body. Qed.

(** One turn of the loop, read through the decoding of the specification. *)
Lemma parsePair_lookup (m : dict) (seg k : str) :
  parsePair m seg !! k =
  if decide (k ≠ lit "__proto__" ∧ k ≠ [] ∧ segmentKey seg = Some k)
  then Some (segmentValue seg) else m !! k.
Proof.
  unfold parsePair, segmentKey, segmentValue, substring, substringFrom.
  destruct (indexOf 58 seg) as [i|];
    [|rewrite decide_False; [done|by intros (_ & _ & ?)]].
  rewrite Nat.sub_0_r, drop_0.
  destruct (trim (take i seg)) as [|c key] eqn:E.
  - rewrite decide_False; [done|]. intros (_ & Hk & [= <-]). done.
  - unfold set_property. destruct (decide (c :: key = lit "__proto__")) as [Hp|Hp].
    + rewrite decide_False; [done|]. intros (Hk & _ & [= <-]). done.
    + destruct (decide (c :: key = k)) as [<-|Hk].
      * rewrite decide_True by done. by rewrite lookup_insert_eq.
      * rewrite decide_False; [by rewrite lookup_insert_ne|].
        intros (_ & _ & [= ?]). done.
Qed.

Lemma foldl_parsePair_lookup (segs : list str) (m : dict) (k : str) :
  foldl parsePair m segs !! k =
  if decide (k = lit "__proto__") then m !! k
  else match lastBinding k segs with
       | Some v => Some v
       | None => m !! k
       end.
Proof.
  revert m. induction segs as [|seg segs IH]; intros m; simpl.
  - by destruct (decide _).
  - rewrite IH, parsePair_lookup.
    destruct (decide (k = lit "__proto__")) as [->|Hp].
    + rewrite decide_False; [done|]. by intros [? _].
    + destruct (lastBinding k segs); [done|].
      destruct (decide (k ≠ [] ∧ segmentKey seg = Some k)) as [[??]|Hn].
      * by rewrite decide_True.
      * rewrite decide_False; [done|]. intros (_ & ? & ?). by destruct Hn.
Qed.

(** A segment without a colon does not count. *)
Lemma lastBinding_no_colon (k seg : str) (before after : list str) :
  indexOf 58 seg = None →
  lastBinding k (before ++ seg :: after) = lastBinding k (before ++ after).
Proof.
  intros H. induction before as [|seg' before IH]; simpl.
  - destruct (lastBinding k after); [done|].
    unfold segmentKey. rewrite H. rewrite decide_False; [done|by intros [_ ?]].
  - by rewrite IH.
Qed.

(** A segment whose trimmed key is empty does not count. *)
Lemma lastBinding_empty_key (k seg : str) (before after : list str) :
  segmentKey seg = Some [] →
  lastBinding k (before ++ seg :: after) = lastBinding k (before ++ after).
Proof.
  intros H. induction before as [|seg' before IH]; simpl.
  - destruct (lastBinding k after); [done|].
    rewrite H. rewrite decide_False; [done|]. by intros [? [= <-]].
  - by rewrite IH.
Qed.

(** Of the segments with the same key the last one counts. *)
Lemma lastBinding_last (k seg : str) (before after : list str) :
  k ≠ [] → segmentKey seg = Some k →
  Forall (λ seg', segmentKey seg' ≠ Some k) after →
  lastBinding k (before ++ seg :: after) = Some (segmentValue seg).
Proof.
  intros Hk Hseg Hafter.
  assert (lastBinding k after = None) as Hnone.
  { induction Hafter as [|seg' after Hseg' _ IH]; simpl; [done|].
    rewrite IH. rewrite decide_False; [done|]. by intros [_ ?]. }
  induction before as [|seg' before IH]; simpl.
  - rewrite Hnone. by rewrite decide_True.
  - by rewrite IH.
Qed.

(** The parameters of a matched call (any call at the front of the
    response, with any body), read segment by segment.  Under a key [k] other
    than [__proto__] the decoded call holds the value of the last
    comma-separated segment that has a colon and whose text before the first
    colon, trimmed, is [k]; segments without a colon and segments with an
    empty trimmed key leave no trace ([lastBinding_no_colon],
    [lastBinding_empty_key]) and do not make the decoding fail.  Under
    [__proto__] nothing is held, whatever the segments.  ([lastBinding] finds
    the colon and trims as the code does; [last_occurrence_wins] below is
    stated on the wire format instead.) *)
Lemma parameters_by_segment (nm body rest k : str) :
  is_name nm → forallb not_rbrace body = true →
  ∃ call, parseToolCall (callSpan nm body ++ rest) = Some call
    ∧ name call = nm
    ∧ parameters call !! k =
        if decide (k = lit "__proto__") then None
        else lastBinding k (split 44 body).
Proof.
  intros Hn Hb. eexists. split; [by apply parseToolCall_callSpan|].
  split; [done|]. cbn [parameters].
  rewrite parseParameters_split, foldl_parsePair_lookup, lookup_empty.
  destruct (decide _); [done|]. by destruct (lastBinding _ _).
Qed.

(** The decoding evaluated on a body with a padded key, a segment without
    a colon, an empty key and a key that comes twice: the padded key is
    trimmed, the segment without colon and the empty key are dropped, the
    last [a] wins. *)
Lemma segmentsBody_decoded :
  split 44 segmentsBody =
    [lit " a :<escape>1<escape>"; lit "junk"; lit ":<escape>2<escape>";
     lit "a:<escape>3<escape>"]
  ∧ parseToolCall (callSpan (lit "f") segmentsBody) =
      Some {| name := lit "f"; parameters := {[ lit "a" := lit "3" ]} |}
  ∧ lastBinding (lit "a") (split 44 segmentsBody) = Some (lit "3").
Proof. by vm_compute. Qed.

(** ** The round trip through the wire format *)

Lemma re_exec_Lit (l s : str) :
  re_exec (Lit l) s = (λ s', (s', [])) <$> strip_prefix l s.
Proof. unfold re_exec. simpl. by destruct (strip_prefix l s). Qed.

Lemma escapeMarker_inside (b rest r : str) :
  b ≠ [] → (rest = [] ∨ ∃ rest', rest = 60%N :: rest') →
  strip_prefix escapeMarker (b ++ rest) = Some r → occurs escapeMarker b.
Proof.
  intros Hb Hrest H.
  apply (strip_prefix_inside 60 (lit "escape>")) in H as [b' ->];
    [by exists [], b'|by apply (bool_decide_unpack _); vm_compute|done..].
Qed.

(** The value between two escape markers comes back as it was written. *)
Lemma unescape_value (v : str) :
  ¬ occurs escapeMarker v → ¬ occurs (lit "</escape>") v →
  remove_all escapeClose (remove_all escapeOpen (escapeMarker ++ v ++ escapeMarker)) = v.
Proof.
  intros Ho Hc.
  assert (remove_all escapeOpen (escapeMarker ++ v ++ escapeMarker) = v) as ->.
  { unfold escapeOpen. fold escapeMarker.
    rewrite (remove_all_match _ escapeMarker _ []);
      [|by vm_compute|by rewrite re_exec_Lit, strip_prefix_app].
    rewrite remove_all_app.
    - rewrite <- (app_nil_r escapeMarker) at 2.
      rewrite (remove_all_match _ escapeMarker _ []);
        [|by vm_compute|by rewrite re_exec_Lit, strip_prefix_app].
      by rewrite remove_all_nil, app_nil_r.
    - intros a b -> Hb. rewrite re_exec_Lit.
      destruct (strip_prefix escapeMarker (b ++ escapeMarker)) eqn:E; [|done].
      destruct Ho. apply occurs_app_r.
      apply (escapeMarker_inside b escapeMarker l); [done| |done].
      right. by eexists. }
  apply remove_all_id, re_match_None. intros pre t Hv.
  unfold escapeClose. rewrite re_exec_Lit.
  destruct (strip_prefix (lit "</escape>") t) eqn:E; [|done].
  apply strip_prefix_Some in E. subst.
  destruct Hc. by exists pre, l.
Qed.

Lemma trim_id (s : str) :
  stops is_white_space s → stops is_white_space (reverse s) → trim s = s.
Proof.
  intros H1 H2. unfold trim, trimStart, trimEnd.
  by rewrite (drop_while_id _ s), (drop_while_id _ (reverse s)), reverse_involutive.
Qed.

Lemma trim_escaped (v : str) :
  trim (escapeMarker ++ v ++ escapeMarker) = escapeMarker ++ v ++ escapeMarker.
Proof.
  apply trim_id; [by vm_compute|].
  rewrite !reverse_app. by vm_compute.
Qed.

Lemma indexOf_app (c : N) (k rest : str) :
  c ∉ k → indexOf c (k ++ c :: rest) = Some (length k).
Proof.
  induction k as [|x k IH]; simpl; intros Hk.
  - by rewrite N.eqb_refl.
  - apply not_elem_of_cons in Hk as [Hx Hk].
    destruct (N.eqb_spec x c); [done|]. by rewrite IH.
Qed.

Lemma keyUnit_not_in (c : N) (k : str) :
  keyUnit c = false → forallb keyUnit k = true → c ∉ k.
Proof.
  intros Hc. induction k as [|x k IH]; simpl; intros Hk; [by apply not_elem_of_nil|].
  apply andb_prop in Hk as [H1 H2].
  apply not_elem_of_cons. split; [congruence|by apply IH].
Qed.

(** One turn of the loop on a pair of the wire format. *)
Lemma parsePair_encodeParam (m : dict) (k v : str) :
  wellFormedKey k → wellFormedValue v → k ≠ lit "__proto__" →
  parsePair m (encodeParam (k, v)) = <[k := v]> m.
Proof.
  intros (Hne & Htrim & Hk) (Hv & Ho & Hc) Hp.
  unfold parsePair, encodeParam, substring, substringFrom. cbn [fst snd].
  change (lit ":") with [58%N]. cbn [app].
  rewrite indexOf_app by by apply (keyUnit_not_in 58%N).
  rewrite Nat.sub_0_r, drop_0, take_app_length.
  rewrite (cons_middle 58%N k), app_assoc.
  replace (length k + 1) with (length (k ++ [58%N]))
    by (rewrite length_app; simpl; lia).
  rewrite drop_app_length, Htrim, trim_escaped, unescape_value by done.
  destruct k as [|c k]; [done|].
  unfold set_property. by rewrite decide_False.
Qed.

Lemma forallb_weaken (p q : N → bool) (s : str) :
  (∀ c, p c = true → q c = true) → forallb p s = true → forallb q s = true.
Proof.
  intros Hpq. induction s as [|c s IH]; simpl; [done|].
  intros [Hc Hs]%andb_prop. by rewrite (Hpq c Hc), IH.
Qed.

Lemma forallb_not_in (p : N → bool) (c : N) (s : str) :
  p c = false → forallb p s = true → c ∉ s.
Proof.
  intros Hc. induction s as [|x s IH]; simpl; intros Hs; [by apply not_elem_of_nil|].
  apply andb_prop in Hs as [H1 H2].
  apply not_elem_of_cons. split; [congruence|by apply IH].
Qed.

Lemma split_no_sep (c : N) (a : str) : c ∉ a → split c a = [a].
Proof.
  induction a as [|x a IH]; simpl; intros Ha; [done|].
  apply not_elem_of_cons in Ha as [Hx Ha].
  destruct (N.eqb_spec x c); [done|]. by rewrite IH.
Qed.

Lemma split_app (c : N) (a rest : str) :
  c ∉ a → split c (a ++ c :: rest) = a :: split c rest.
Proof.
  induction a as [|x a IH]; simpl; intros Ha.
  - by rewrite N.eqb_refl.
  - apply not_elem_of_cons in Ha as [Hx Ha].
    destruct (N.eqb_spec x c); [done|]. by rewrite IH.
Qed.

Lemma split_joinComma (segs : list str) :
  segs ≠ [] → Forall (λ seg, 44%N ∉ seg) segs → split 44 (joinComma segs) = segs.
Proof.
  intros Hne H. induction H as [|seg segs Hseg Hsegs IH]; [done|].
  destruct segs as [|seg' segs]; simpl.
  - by apply split_no_sep.
  - change (lit ",") with [44%N]. cbn [app].
    rewrite split_app by done. f_equal. by apply IH.
Qed.

Lemma forallb_joinComma (segs : list str) :
  Forall (λ seg, forallb not_rbrace seg = true) segs →
  forallb not_rbrace (joinComma segs) = true.
Proof.
  intros H. induction H as [|seg segs Hseg Hsegs IH]; [done|].
  destruct segs as [|seg' segs]; [done|].
  change (joinComma (seg :: seg' :: segs))
    with (seg ++ lit "," ++ joinComma (seg' :: segs)).
  by rewrite !forallb_app, Hseg, IH.
Qed.

Lemma encodeParam_units (k v : str) :
  wellFormedKey k → wellFormedValue v →
  (44%N ∉ encodeParam (k, v)) ∧ forallb not_rbrace (encodeParam (k, v)) = true.
Proof.
  intros (_ & _ & Hk) (Hv & _ & _).
  assert (forallb valueUnit (encodeParam (k, v)) = true) as H.
  { unfold encodeParam. cbn [fst snd].
    rewrite !forallb_app, Hv.
    rewrite (forallb_weaken keyUnit valueUnit k); [done| |done].
    intros c. unfold keyUnit, valueUnit.
    by destruct (c =? 44)%N, (c =? 58)%N, (c =? 125)%N. }
  split.
  - by apply (forallb_not_in valueUnit).
  - apply (forallb_weaken valueUnit); [|done].
    intros c. unfold valueUnit, not_rbrace.
    by destruct (c =? 44)%N, (c =? 125)%N.
Qed.

Lemma foldl_insert (pairs : list (str * str)) (m : dict) :
  foldl (λ m kv, <[kv.1 := kv.2]> m) m pairs = list_to_map (reverse pairs) ∪ m.
Proof.
  revert m. induction pairs as [|[k v] pairs IH]; intros m; simpl.
  - by rewrite (left_id_L ∅ (∪)).
  - rewrite IH, reverse_cons, list_to_map_app. simpl.
    rewrite <- (assoc_L (∪)). f_equal.
    by rewrite <- insert_union_l, (left_id_L ∅ (∪)).
Qed.

Lemma foldl_parsePair_encodeParam (pairs : list (str * str)) (m : dict) :
  Forall (λ kv, wellFormedKey kv.1 ∧ wellFormedValue kv.2) pairs →
  Forall (λ kv, kv.1 ≠ lit "__proto__") pairs →
  foldl parsePair m (encodeParam <$> pairs) =
  foldl (λ m kv, <[kv.1 := kv.2]> m) m pairs.
Proof.
  intros H. revert m. induction H as [|[k v] pairs [Hk Hv] _ IH]; intros m Hp; [done|].
  apply Forall_cons in Hp as [Hp1 Hp].
  cbn [fmap list_fmap foldl]. rewrite parsePair_encodeParam by done.
  by apply IH.
Qed.

(** Decoding the wire string of a list of pairs gives the pairs, as long as
    no key is [__proto__]. *)
Lemma decode_encodeCall (nm : str) (pairs : list (str * str)) :
  is_name nm → wellFormedPairs pairs →
  Forall (λ kv, kv.1 ≠ lit "__proto__") pairs →
  parseToolCall (encodeCall nm pairs) =
    Some {| name := nm; parameters := list_to_map pairs |}.
Proof.
  intros Hn [Hnd Hwf] Hp. unfold encodeCall.
  assert (Forall (λ seg, (44%N ∉ seg) ∧ forallb not_rbrace seg = true)
                 (encodeParam <$> pairs)) as Hsegs.
  { apply Forall_fmap. eapply Forall_impl; [apply Hwf|].
    intros [k v] [Hk Hv]. by apply encodeParam_units. }
  rewrite <- (app_nil_r (callSpan _ _)).
  rewrite parseToolCall_callSpan; [|done|].
  - do 2 f_equal. rewrite parseParameters_split.
    destruct pairs as [|kv pairs]; [done|].
    rewrite split_joinComma;
      [|done|by eapply Forall_impl; [apply Hsegs|]; intros ? []].
    rewrite foldl_parsePair_encodeParam, foldl_insert by done.
    rewrite (right_id_L ∅ (∪)).
    apply list_to_map_proper; [|apply reverse_Permutation].
    by rewrite reverse_Permutation.
  - apply forallb_joinComma. by eapply Forall_impl; [apply Hsegs|]; intros ? [].
Qed.

(** The same with keys that come more than once: of the pairs of one key
    the last one is kept. *)
Lemma decode_duplicates (nm : str) (pairs : list (str * str)) :
  is_name nm →
  Forall (λ kv, wellFormedKey kv.1 ∧ wellFormedValue kv.2) pairs →
  Forall (λ kv, kv.1 ≠ lit "__proto__") pairs →
  parseToolCall (encodeCall nm pairs) =
    Some {| name := nm; parameters := list_to_map (reverse pairs) |}.
Proof.
  intros Hn Hwf Hp. unfold encodeCall.
  assert (Forall (λ seg, (44%N ∉ seg) ∧ forallb not_rbrace seg = true)
                 (encodeParam <$> pairs)) as Hsegs.
  { apply Forall_fmap. eapply Forall_impl; [apply Hwf|].
    intros [k v] [Hk Hv]. by apply encodeParam_units. }
  rewrite <- (app_nil_r (callSpan _ _)).
  rewrite parseToolCall_callSpan; [|done|].
  - do 2 f_equal. rewrite parseParameters_split.
    destruct pairs as [|kv pairs]; [done|].
    rewrite split_joinComma;
      [|done|by eapply Forall_impl; [apply Hsegs|]; intros ? []].
    rewrite foldl_parsePair_encodeParam, foldl_insert by done.
    by rewrite (right_id_L ∅ (∪)).
  - apply forallb_joinComma. by eapply Forall_impl; [apply Hsegs|]; intros ? [].
Qed.

(** Last occurrence wins, stated on the wire format: when the parameter
    [k:<escape>v<escape>] is followed by no other parameter of the key [k],
    the decoded call holds [v] under [k], whatever comes before.  No key is
    [__proto__] here. *)
Lemma last_occurrence_wins (nm k v : str) (before after : list (str * str)) :
  is_name nm →
  Forall (λ kv, wellFormedKey kv.1 ∧ wellFormedValue kv.2)
         (before ++ (k, v) :: after) →
  Forall (λ kv, kv.1 ≠ lit "__proto__") (before ++ (k, v) :: after) →
  k ∉ after.*1 →
  ∃ call, parseToolCall (encodeCall nm (before ++ (k, v) :: after)) = Some call
    ∧ name call = nm ∧ parameters call !! k = Some v.
Proof.
  intros Hn Hwf Hp Hk. eexists. split; [by apply decode_duplicates|].
  split; [done|]. cbn [parameters].
  rewrite reverse_app, reverse_cons, !list_to_map_app.
  apply lookup_union_Some_l. rewrite lookup_union_r.
  - simpl. by rewrite lookup_insert_eq.
  - apply not_elem_of_list_to_map_1. by rewrite fmap_reverse, elem_of_reverse.
Qed.

(** Re-encoding the decoded call, its parameters taken in any order, gives
    a span that decodes to the same call. *)
Lemma reencode_decoded (nm : str) (pairs pairs' : list (str * str)) :
  is_name nm → wellFormedPairs pairs →
  Forall (λ kv, kv.1 ≠ lit "__proto__") pairs →
  pairs' ≡ₚ pairs →
  parseToolCall (encodeCall nm pairs') = parseToolCall (encodeCall nm pairs)
  ∧ parseToolCall (encodeCall nm pairs) =
      Some {| name := nm; parameters := list_to_map pairs |}.
Proof.
  intros Hn [Hnd Hwf] Hp Hperm.
  rewrite !decode_encodeCall; try done.
  - split; [|done]. do 2 f_equal. apply list_to_map_proper; [|done].
    by rewrite Hperm.
  - split; [by rewrite Hperm|by rewrite Hperm].
  - by rewrite Hperm.
Qed.

(** The round trip of the specification, for keys other than [__proto__]:
    the decoded call has the name and the key/value set of the input, and its
    own wire string, the parameters in the order the map lists them, decodes
    to the same call. *)
Lemma round_trip (nm : str) (pairs : list (str * str)) :
  is_name nm → wellFormedPairs pairs →
  Forall (λ kv, kv.1 ≠ lit "__proto__") pairs →
  ∃ call, parseToolCall (encodeCall nm pairs) = Some call
    ∧ name call = nm ∧ parameters call = list_to_map pairs
    ∧ parseToolCall (encodeCall (name call) (map_to_list (parameters call))) =
        Some call.
Proof.
  intros Hn Hwf Hp. eexists. split; [by apply decode_encodeCall|].
  split_and!; [done..|]. cbn [name parameters].
  destruct (reencode_decoded nm pairs (map_to_list (list_to_map pairs : dict)))
    as [-> ->]; [done..| |done].
  apply map_to_list_to_map, Hwf.
Qed.

(** C5 (the code at the failing input): in the call that names [__proto__]
    twice, with the values [a] and [b], and then [k] with the value [v], each
    of the three segments has a colon and a key that is not empty once
    trimmed, and the last occurrence of [__proto__] carries [b]; yet the
    decoded call holds [k] alone, and nothing under [__proto__]: neither
    assignment stores anything.  With [q] in the place of [__proto__] the
    last occurrence wins: [q] is decoded to [b]. *)
Lemma duplicate_proto_is_lost :
  protoTwiceInput =
    lit "<start_function_call>call:f{__proto__:<escape>a<escape>,__proto__:<escape>b<escape>,k:<escape>v<escape>}<end_function_call>"
  ∧ parseToolCall protoTwiceInput =
      Some {| name := lit "f"; parameters := {[ lit "k" := lit "v" ]} |}
  ∧ ({[ lit "k" := lit "v" ]} : dict) !! lit "__proto__" = None
  ∧ (list_to_map (reverse protoTwicePairs) : dict) !! lit "__proto__" =
      Some (lit "b")
  ∧ parsePair ∅ (lit "__proto__:<escape>b<escape>") = ∅
  ∧ parsePair ∅ (lit "q:<escape>b<escape>") = {[ lit "q" := lit "b" ]}
  ∧ parseToolCall plainTwiceInput =
      Some {| name := lit "f";
              parameters := {[ lit "q" := lit "b"; lit "k" := lit "v" ]} |}.
Proof. split_and!; by vm_compute. Qed.

(** C2 (the code at the failing input): the span of a call with the one
    parameter [__proto__] = [x] is well-formed, yet decoding it gives a call
    without parameters, whose wire string is [call:f{}]: the key/value set of
    the input is not reproduced. *)
Lemma proto_parameter_is_lost :
  is_name (lit "f")
  ∧ wellFormedPairs [(lit "__proto__", lit "x")]
  ∧ parseToolCall protoInput = Some {| name := lit "f"; parameters := ∅ |}
  ∧ (∅ : dict) ≠ list_to_map [(lit "__proto__", lit "x")]
  ∧ encodeCall (lit "f") (map_to_list (∅ : dict)) =
      lit "<start_function_call>call:f{}<end_function_call>"
  ∧ protoInput =
      lit "<start_function_call>call:f{__proto__:<escape>x<escape>}<end_function_call>".
Proof.
  split_and!.
  - by vm_compute.
  - split; [by apply (bool_decide_unpack _); vm_compute|].
    constructor; [|done]. split; [by vm_compute|].
    split_and!; [by vm_compute|by apply not_occurs_includes..].
  - by vm_compute.
  - intros H. apply (f_equal (λ m, m !! lit "__proto__")) in H. by vm_compute in H.
  - by vm_compute.
  - by vm_compute.
Qed.

(** ** More about the decoder *)

Lemma looseCall_occurs (response : str) :
  hasLooseCall response → occurs startMarker response.
Proof.
  intros (pre & s & post & (nm & body & -> & _) & ->).
  unfold callSpan. exists pre, ((lit "call:" ++ nm ++ lit "{" ++ body ++ lit "}"
                                 ++ endMarker) ++ post).
  by rewrite <- !app_assoc.
Qed.

Lemma lineSpan_occurs (response : str) :
  hasLineSpan response → occurs startMarker response.
Proof.
  intros (pre & s & post & (mid & -> & _) & ->).
  exists pre, ((mid ++ endMarker) ++ post). by rewrite <- !app_assoc.
Qed.

(** X1: a response without the start marker is never taken for a call:
    [hasToolCall] false means that the decoder finds no call, that the prose
    is the whole text, trimmed, and that processing invokes no callback and
    hands the text back as it came. *)
Theorem no_marker_no_call (options : UseToolCallsOptions) (response : str) :
  hasToolCall response = false →
  parseToolCall response = None
  ∧ extractNonToolText response = trim response
  ∧ processResponse options response =
      ([], Returned {| toolCall := None; result := None; textResponse := response |}).
Proof.
  intros H%not_occurs_includes.
  assert (parseToolCall response = None) as Hp.
  { apply parseToolCall_None. intros Hl. by apply H, looseCall_occurs. }
  split_and!; [done| |].
  - apply extractNonToolText_fixed. intros Hl. by apply H, lineSpan_occurs.
  - unfold processResponse. by rewrite Hp.
Qed.

Lemma no_marker_no_call_witness :
  parseToolCall (lit "Sure, I can help with that.") = None
  ∧ extractNonToolText (lit "Sure, I can help with that.") =
      trim (lit "Sure, I can help with that.")
  ∧ processResponse quietOptions (lit "Sure, I can help with that.") =
      ([], Returned {| toolCall := None; result := None;
                       textResponse := lit "Sure, I can help with that." |}).
Proof.
  apply (no_marker_no_call quietOptions (lit "Sure, I can help with that.")).
  by vm_compute.
Defined.

Lemma re_match_app (r : regex) (p s : str) :
  (∀ a b, p = a ++ b → b ≠ [] → re_exec r (b ++ s) = None) →
  re_match r (p ++ s) =
  match re_match r s with
  | Some (before, rest, caps) => Some (p ++ before, rest, caps)
  | None => None
  end.
Proof.
  induction p as [|c p IH]; intros H.
  - simpl. by destruct (re_match r s) as [[[??]?]|].
  - rewrite <- app_comm_cons. cbn [re_match].
    pose proof (H [] (c :: p) eq_refl ltac:(done)) as H0.
    rewrite <- app_comm_cons in H0. rewrite H0.
    rewrite IH; [by destruct (re_match r s) as [[[??]?]|]|].
    intros a b -> Hb. by apply (H (c :: a) b).
Qed.

Lemma strip_prefix_split (l1 l2 s r : str) :
  strip_prefix (l1 ++ l2) s = Some r → strip_prefix l1 s = Some (l2 ++ r).
Proof.
  intros ->%strip_prefix_Some. rewrite <- app_assoc. apply strip_prefix_app.
Qed.

(** No match of [toolCallRegex] starts inside a text without start marker
    that is followed by a start marker. *)
Lemma no_call_inside (p rest : str) :
  ¬ occurs startMarker p → (rest = [] ∨ ∃ rest', rest = 60%N :: rest') →
  ∀ a b, p = a ++ b → b ≠ [] → re_exec toolCallRegex (b ++ rest) = None.
Proof.
  intros Hp Hrest a b -> Hb. rewrite re_exec_toolCallRegex.
  destruct (strip_prefix _ (b ++ rest)) as [s1|] eqn:E; [|done].
  change (lit "<start_function_call>call:") with (startMarker ++ lit "call:") in E.
  apply strip_prefix_split in E.
  destruct Hp. apply occurs_app_r. by apply (startMarker_inside b rest _ Hb Hrest E).
Qed.

(** X3: the first call of a response is the one that is decoded: prose
    without start marker before it, and whatever follows it (more calls
    included), change nothing of the decoded call. *)
Theorem first_call_is_decoded (pre nm body rest : str) :
  ¬ occurs startMarker pre → is_name nm → forallb not_rbrace body = true →
  parseToolCall (pre ++ callSpan nm body ++ rest) =
    Some {| name := nm; parameters := parseParameters body |}.
Proof.
  intros Hpre Hn Hb. unfold parseToolCall.
  rewrite re_match_app.
  - by rewrite (re_match_here _ _ rest [nm; body])
      by by apply re_exec_toolCallRegex_complete.
  - apply no_call_inside; [done|]. right. by eexists.
Qed.

Lemma first_call_is_decoded_witness :
  parseToolCall (lit "Sure! " ++ callSpan (lit "change_theme")
                   (lit "theme:<escape>dark<escape>") ++ secondCall) =
    Some {| name := lit "change_theme";
            parameters := parseParameters (lit "theme:<escape>dark<escape>") |}.
Proof.
  apply (first_call_is_decoded (lit "Sure! ") (lit "change_theme")
           (lit "theme:<escape>dark<escape>") secondCall).
  - by apply not_occurs_includes.
  - by vm_compute.
  - by vm_compute.
Defined.

Lemma forallb_drop_while (p q : N → bool) (s : str) :
  forallb p s = true → forallb p (drop_while q s) = true.
Proof.
  induction s as [|c s IH]; simpl; [done|].
  intros [Hc Hs]%andb_prop. destruct (q c); [by apply IH|].
  simpl. by rewrite Hc, Hs.
Qed.

Lemma forallb_reverse (p : N → bool) (s : str) :
  forallb p s = true → forallb p (reverse s) = true.
Proof.
  induction s as [|c s IH]; simpl; [done|].
  intros [Hc Hs]%andb_prop.
  rewrite reverse_cons, forallb_app, IH by done. simpl. by rewrite Hc.
Qed.

Lemma forallb_trim (p : N → bool) (s : str) :
  forallb p s = true → forallb p (trim s) = true.
Proof.
  intros H. unfold trim, trimEnd, trimStart.
  by apply forallb_reverse, forallb_drop_while, forallb_reverse, forallb_drop_while.
Qed.

Lemma forallb_take (p : N → bool) (n : nat) (s : str) :
  forallb p s = true → forallb p (take n s) = true.
Proof.
  revert n. induction s as [|c s IH]; intros [|n]; simpl; try done.
  intros [-> Hs]%andb_prop. by apply IH.
Qed.

Lemma forallb_drop (p : N → bool) (n : nat) (s : str) :
  forallb p s = true → forallb p (drop n s) = true.
Proof.
  revert n. induction s as [|c s IH]; intros [|n]; simpl; try done.
  intros [_ Hs]%andb_prop. by apply IH.
Qed.

(** Removing matches only drops units. *)
Lemma forallb_remove_from (p : N → bool) (r : regex) (n : nat) (s : str) :
  forallb p s = true → forallb p (remove_from r n s) = true.
Proof.
  revert n. induction s as [|c s IH]; intros [|n]; simpl; try done.
  - intros [Hc Hs]%andb_prop.
    destruct (re_exec r (c :: s)) as [[rest ?]|].
    + destruct (S (length s) - length rest); simpl; rewrite ?Hc; by apply IH.
    + simpl. rewrite Hc. by apply IH.
  - intros [_ Hs]%andb_prop. by apply IH.
Qed.

Lemma split_pieces (p : N → bool) (c : N) (s : str) :
  forallb p s = true → Forall (λ seg, forallb p seg = true) (split c s).
Proof.
  induction s as [|x s IH]; simpl; [by repeat constructor|].
  intros [Hx Hs]%andb_prop. specialize (IH Hs).
  destruct (x =? c)%N; [by constructor|].
  destruct (split c s) as [|piece pieces]; [by repeat constructor; simpl; rewrite Hx|].
  apply Forall_cons in IH as [H1 H2]. constructor; [|done].
  simpl. by rewrite Hx.
Qed.

Lemma split_no_separator (c : N) (s : str) :
  Forall (λ seg, forallb (unlike c) seg = true) (split c s).
Proof.
  induction s as [|x s IH]; simpl; [by repeat constructor|].
  destruct (x =? c)%N eqn:E; [by constructor|].
  destruct (split c s) as [|piece pieces];
    [by repeat constructor; unfold unlike; simpl; rewrite E|].
  apply Forall_cons in IH as [H1 H2]. constructor; [|done].
  unfold unlike at 1. simpl. by rewrite E.
Qed.

Lemma indexOf_take (c : N) (s : str) (i : nat) :
  indexOf c s = Some i → forallb (unlike c) (take i s) = true.
Proof.
  revert i. induction s as [|x s IH]; intros i; simpl; [done|].
  destruct (x =? c)%N eqn:E; [by intros [= <-]|].
  destruct (indexOf c s) as [j|]; [|done]. intros [= <-]. simpl.
  unfold unlike at 1. rewrite E. by apply IH.
Qed.

Lemma lastBinding_Some (k v : str) (segs : list str) :
  lastBinding k segs = Some v →
  ∃ seg, seg ∈ segs ∧ k ≠ [] ∧ segmentKey seg = Some k ∧ v = segmentValue seg.
Proof.
  induction segs as [|seg segs IH]; simpl; [done|].
  destruct (lastBinding k segs) as [v'|].
  - intros [= ->]. destruct (IH eq_refl) as (seg' & Hin & H).
    exists seg'. split; [by apply elem_of_cons; right|done].
  - destruct (decide _) as [[Hk Hseg]|]; [|done]. intros [= <-].
    exists seg. split; [by apply elem_of_cons; left|done].
Qed.

(** X2: whatever the response, a decoded call has a name of one or more
    word characters, and each of its parameters has a key that is not empty,
    carries no white space around it, is not [__proto__] and holds no comma,
    colon or closing brace, and a value that holds no comma and no closing
    brace (a value written with a comma arrives cut). *)
Theorem decoded_call_shape (response : str) (call : ToolCall) :
  parseToolCall response = Some call →
  is_name (name call)
  ∧ ∀ k v, parameters call !! k = Some v →
      wellFormedKey k ∧ k ≠ lit "__proto__" ∧ forallb valueUnit v = true.
Proof.
  unfold parseToolCall.
  destruct (re_match toolCallRegex response) as [[[before rest] caps]|] eqn:E; [|done].
  apply re_match_Some in E as (t & _ & Ht & _).
  apply re_exec_toolCallRegex_sound in Ht as (nm & body & _ & -> & Hn & Hb).
  intros [= <-]. cbn [name parameters lookup list_lookup default].
  split; [done|]. intros k v.
  rewrite parseParameters_split, foldl_parsePair_lookup, lookup_empty.
  destruct (decide (k = lit "__proto__")) as [|Hp]; [done|].
  destruct (lastBinding k (split 44 body)) as [v'|] eqn:El; [|done].
  intros [= ->].
  apply lastBinding_Some in El as (seg & Hin & Hk & Hkey & ->).
  pose proof (split_no_separator 44 body) as H44.
  pose proof (split_pieces not_rbrace 44 body Hb) as H125.
  rewrite Forall_forall in H44, H125.
  specialize (H44 seg Hin). specialize (H125 seg Hin). cbv beta in *.
  unfold segmentKey, segmentValue in *.
  destruct (indexOf 58 seg) as [i|] eqn:Ei; [|done].
  injection Hkey as <-. unfold wellFormedKey.
  split_and!; [done|apply trim_idemp| |done|].
  - pose proof (indexOf_take _ _ _ Ei) as H58.
    apply forallb_trim.
    apply (forallb_take _ i) in H44, H125.
    clear -H44 H125 H58. induction (take i seg) as [|x l IH]; simpl in *; [done|].
    apply andb_prop in H44 as [? ?], H125 as [? ?], H58 as [? ?].
    rewrite IH by done. unfold keyUnit, unlike, not_rbrace in *.
    by destruct (x =? 44)%N, (x =? 58)%N, (x =? 125)%N.
  - unfold remove_all. do 2 apply forallb_remove_from. apply forallb_trim.
    apply (forallb_drop _ (i + 1)) in H44, H125.
    clear -H44 H125. induction (drop (i + 1) seg) as [|x l IH]; simpl in *; [done|].
    apply andb_prop in H44 as [? ?], H125 as [? ?].
    rewrite IH by done. unfold valueUnit, unlike, not_rbrace in *.
    by destruct (x =? 44)%N, (x =? 125)%N.
Qed.

Lemma decoded_call_shape_witness :
  is_name (name {| name := lit "f"; parameters := {[ lit "a" := lit "3" ]} |})
  ∧ ∀ k v,
      parameters {| name := lit "f"; parameters := {[ lit "a" := lit "3" ]} |} !! k
        = Some v →
      wellFormedKey k ∧ k ≠ lit "__proto__" ∧ forallb valueUnit v = true.
Proof.
  apply (decoded_call_shape (callSpan (lit "f") segmentsBody)
           {| name := lit "f"; parameters := {[ lit "a" := lit "3" ]} |}).
  by vm_compute.
Defined.

(** X4: the round trip through the wire format.  For a name of word
    characters and pairs with well-formed keys (none of them [__proto__]) and
    values, no key twice, decoding the wire string gives the name and exactly
    the pairs, and encoding the decoded call again, its parameters in the
    order the map lists them, decodes to the same call. *)
Theorem wire_round_trip (nm : str) (pairs : list (str * str)) :
  is_name nm → wellFormedPairs pairs →
  Forall (λ kv, kv.1 ≠ lit "__proto__") pairs →
  parseToolCall (encodeCall nm pairs) =
    Some {| name := nm; parameters := list_to_map pairs |}
  ∧ parseToolCall (encodeCall nm (map_to_list (list_to_map pairs : dict))) =
      Some {| name := nm; parameters := list_to_map pairs |}.
Proof.
  intros Hn Hwf Hp.
  destruct (reencode_decoded nm pairs (map_to_list (list_to_map pairs : dict)))
    as [H1 H2]; [done..| |].
  - apply map_to_list_to_map, Hwf.
  - by rewrite H1, H2.
Qed.

Lemma wire_round_trip_witness :
  parseToolCall (encodeCall (lit "show_notification")
                   [(lit "message", lit "Hello!"); (lit "type", lit "info")]) =
    Some {| name := lit "show_notification";
            parameters := list_to_map [(lit "message", lit "Hello!");
                                       (lit "type", lit "info")] |}
  ∧ parseToolCall
      (encodeCall (lit "show_notification")
         (map_to_list (list_to_map [(lit "message", lit "Hello!");
                                    (lit "type", lit "info")] : dict))) =
      Some {| name := lit "show_notification";
              parameters := list_to_map [(lit "message", lit "Hello!");
                                         (lit "type", lit "info")] |}.
Proof.
  apply (wire_round_trip (lit "show_notification")
           [(lit "message", lit "Hello!"); (lit "type", lit "info")]).
  - by vm_compute.
  - split; [by apply (bool_decide_unpack _); vm_compute|].
    repeat constructor; (by vm_compute) || (by apply not_occurs_includes).
  - repeat constructor; by vm_compute.
Defined.

(** ** More about the prose *)

(** X5: of a response made of prose and spans in turn, every span that
    lies on one line and runs to the first end marker is removed, not only
    the first one, and the prose is the pieces between the spans, joined and
    trimmed. *)
Theorem line_spans_all_removed (p0 : str) (items : list (str * str)) :
  ¬ occurs startMarker p0 →
  Forall (λ sp, nearestLineSpan sp.1 ∧ ¬ occurs startMarker sp.2) items →
  extractNonToolText (interleave p0 items) = trim (p0 ++ concat items.*2).
Proof.
  intros Hp0 Hitems. unfold extractNonToolText. by rewrite remove_all_spans.
Qed.

Lemma line_spans_all_removed_witness :
  extractNonToolText
    (interleave (lit "Done: ") [(firstCall, lit ", then "); (firstCall, lit ". ")]) =
  trim (lit "Done: " ++ concat [(firstCall, lit ", then "); (firstCall, lit ". ")].*2).
Proof.
  apply (line_spans_all_removed (lit "Done: ")
           [(firstCall, lit ", then "); (firstCall, lit ". ")]).
  - by apply not_occurs_includes.
  - repeat constructor; try (by apply not_occurs_includes);
      exists (lit "call:change_theme{theme:<escape>dark<escape>}");
      (split_and!; [done|by vm_compute|by apply not_occurs_includes]).
Defined.

(** X6: when the prose of a text still holds a span on one line, a second
    application of [extractNonToolText] removes it, so the two results differ
    (the second is strictly shorter). *)
Theorem leftover_span_is_removed_next (text : str) :
  hasLineSpan (extractNonToolText text) →
  extractNonToolText (extractNonToolText text) ≠ extractNonToolText text
  ∧ length (extractNonToolText (extractNonToolText text))
    < length (extractNonToolText text).
Proof.
  intros H%remove_all_shorter.
  pose proof (trim_length (remove_all callSpanRegex (extractNonToolText text))) as Hl.
  assert (length (extractNonToolText (extractNonToolText text))
          < length (extractNonToolText text)) as Hlt.
  { unfold extractNonToolText at 1. lia. }
  split; [|done]. intros E. rewrite E in Hlt. lia.
Qed.

Lemma leftover_span_is_removed_next_witness :
  extractNonToolText (extractNonToolText nestedInput) ≠ extractNonToolText nestedInput
  ∧ length (extractNonToolText (extractNonToolText nestedInput))
    < length (extractNonToolText nestedInput).
Proof.
  apply (leftover_span_is_removed_next nestedInput).
  apply hasLineSpan_re_match. by vm_compute.
Defined.

(** ** More about the dispatcher *)

(** X7: a dispatch invokes at most one callback.  An outcome with
    [success] is returned after exactly one invocation and carries an
    [action]; a failed outcome is returned without any invocation and without
    [action]; and the dispatcher raises only out of the one callback it
    invoked. *)
Theorem dispatch_one_callback (options : UseToolCallsOptions) (call : ToolCall) :
  match executeToolCall options call with
  | (log, Returned r) =>
      if success r then length log = 1 ∧ is_Some (action r)
      else log = [] ∧ action r = None
  | (log, Raised) => length log = 1
  end.
Proof.
  unfold executeToolCall.
  repeat case_decide; try done.
  - destruct (falsy _); [done|]. destruct (onThemeChange _ _); [|done].
    split; [done|eauto].
  - destruct (falsy _); [done|]. destruct (onNotification _ _ _ _); [|done].
    split; [done|eauto].
  - destruct (falsy _); [done|]. destruct (onNavigate _ _); [|done].
    split; [done|eauto].
Qed.

(** X8: the dispatcher and the schemas of [availableTools] agree.  For
    each tool of the list, a call by its name invokes no callback exactly
    when one of the parameters the schema requires is absent or empty; and
    the names the dispatcher knows are the names of the list: for any other
    name, and for no name of the list, the outcome is [Unknown function]. *)
Theorem dispatch_follows_schema (options : UseToolCallsOptions) :
  Forall (λ tool, ∀ m,
            (executeToolCall options
               {| name := Tools.name tool; parameters := m |}).1 = []
            ↔ ∃ r, r ∈ Tools.required (Tools.parameters tool)
                ∧ falsy (get_property r m) = true)
         Tools.availableTools
  ∧ ∀ call,
      name call ∈ Tools.name <$> Tools.availableTools
      ↔ (executeToolCall options call).2 ≠
          Returned {| success := false;
                      message := lit "Unknown function: " ++ name call;
                      action := None |}.
Proof.
  split.
  - repeat first [apply Forall_nil_2 | apply Forall_cons_2];
      intros m; unfold executeToolCall;
      cbn [name parameters Tools.name Tools.required Tools.parameters
           Tools.changeThemeTool Tools.showNotificationTool
           Tools.navigateToScreenTool];
      rewrite ?decide_False by (by vm_compute); rewrite decide_True by done;
      (destruct (falsy _) eqn:E; cbn [fst]; split;
       [ intros _; eexists; split; [by apply list_elem_of_singleton|done]
       | done
       | done
       | intros (r & ->%list_elem_of_singleton & Hr); congruence ]).
  - intros call. unfold executeToolCall.
    change (Tools.name <$> Tools.availableTools)
      with [lit "change_theme"; lit "show_notification"; lit "navigate_to_screen"].
    rewrite !elem_of_cons, elem_of_nil.
    repeat case_decide.
    + split; [intros _|by left]. rewrite H.
      destruct (falsy _); cbn [snd]; [by vm_compute|].
      by destruct (onThemeChange _ _).
    + split; [intros _|by right; left]. rewrite H0.
      destruct (falsy _); cbn [snd]; [by vm_compute|].
      by destruct (onNotification _ _ _ _).
    + split; [intros _|by right; right; left]. rewrite H1.
      destruct (falsy _); cbn [snd]; [by vm_compute|].
      by destruct (onNavigate _ _).
    + cbn [snd]. split; [|done]. by intros [?|[?|[?|[]]]].
Qed.

(** ** The prompt text of the tools *)

Lemma occurs_join (l sep piece : str) (pieces : list str) :
  piece ∈ pieces → occurs l piece → occurs l (Tools.join sep pieces).
Proof.
  intros Hin Hl. induction pieces as [|x pieces IH]; [by apply elem_of_nil in Hin|].
  apply elem_of_cons in Hin as [->|Hin].
  - destruct pieces; simpl; [done|]. by apply occurs_app_l.
  - destruct pieces as [|y pieces]; [by apply elem_of_nil in Hin|].
    change (Tools.join sep (x :: y :: pieces))
      with (x ++ sep ++ Tools.join sep (y :: pieces)).
    do 2 apply occurs_app_r. by apply IH.
Qed.

Lemma occurs_trans (l a s : str) : occurs l a → occurs a s → occurs l s.
Proof.
  intros Hl (pre & post & ->). by apply occurs_app.
Qed.

Lemma occurs_formatTool (tool : Tools.Tool) (tools : list Tools.Tool) (l : str) :
  tool ∈ tools → occurs l (Tools.formatTool tool) →
  occurs l (Tools.formatToolsForPrompt tools).
Proof.
  intros Hin Hl. unfold Tools.formatToolsForPrompt.
  apply (occurs_join _ _ (Tools.formatTool tool)); [|done].
  by apply list_elem_of_fmap_2.
Qed.

(** X9: the text built for the prompt names everything the schemas
    declare: for each tool of the list its line [- name: description], for
    each of its parameters the line [- key (type): description], and each
    option of each [enum]. *)
Theorem prompt_lists_every_tool (tools : list Tools.Tool) (tool : Tools.Tool) :
  tool ∈ tools →
  occurs (lit "- " ++ Tools.name tool ++ lit ": " ++ Tools.toolDescription tool)
         (Tools.formatToolsForPrompt tools)
  ∧ ∀ key prop, (key, prop) ∈ Tools.properties (Tools.parameters tool) →
      occurs (lit "    - " ++ key ++ lit " (" ++ Tools.type prop ++ lit "): "
              ++ Tools.description prop)
             (Tools.formatToolsForPrompt tools)
      ∧ ∀ options option, Tools.enum prop = Some options → option ∈ options →
          occurs option (Tools.formatToolsForPrompt tools).
Proof.
  intros Hin. split.
  - apply (occurs_formatTool tool); [done|]. unfold Tools.formatTool.
    exists [], ([10%N] ++ lit "  Parameters:" ++ [10%N]
                ++ Tools.join [10%N]
                     (Tools.formatProperty <$> Tools.properties (Tools.parameters tool))).
    by rewrite <- !app_assoc.
  - intros key prop Hprop.
    assert (∀ l, occurs l (Tools.formatProperty (key, prop)) →
                 occurs l (Tools.formatToolsForPrompt tools)) as Hline.
    { intros l Hl. apply (occurs_formatTool tool); [done|].
      unfold Tools.formatTool. cbv zeta. do 7 apply occurs_app_r.
      apply (occurs_join _ _ (Tools.formatProperty (key, prop))); [|done].
      by apply (list_elem_of_fmap_2 Tools.formatProperty). }
    split.
    + apply Hline. unfold Tools.formatProperty. cbn [fst snd]. cbv zeta.
      destruct (Tools.enum prop); [apply occurs_app_l|]; apply occurs_refl.
    + intros options option Hopt Hin'. apply Hline.
      unfold Tools.formatProperty. cbn [fst snd]. cbv zeta. rewrite Hopt.
      do 2 apply occurs_app_r. apply occurs_app_l.
      by apply (occurs_join _ _ option), occurs_refl.
Qed.

Lemma prompt_lists_every_tool_witness :
  occurs (lit "- " ++ Tools.name Tools.changeThemeTool ++ lit ": "
          ++ Tools.toolDescription Tools.changeThemeTool)
         (Tools.formatToolsForPrompt Tools.availableTools)
  ∧ ∀ key prop,
      (key, prop) ∈ Tools.properties (Tools.parameters Tools.changeThemeTool) →
      occurs (lit "    - " ++ key ++ lit " (" ++ Tools.type prop ++ lit "): "
              ++ Tools.description prop)
             (Tools.formatToolsForPrompt Tools.availableTools)
      ∧ ∀ options option, Tools.enum prop = Some options → option ∈ options →
          occurs option (Tools.formatToolsForPrompt Tools.availableTools).
Proof.
  apply (prompt_lists_every_tool Tools.availableTools Tools.changeThemeTool).
  apply elem_of_cons. by left.
Defined.

(** ** The application around the dispatcher *)

(** X10: a [change_theme] call with any non-empty theme is reported as a
    success, whether or not the value is one of [light], [dark], [toggle]
    (the enum is not checked); the handler of the application then inverts
    the mode for [toggle] and otherwise selects dark exactly for [dark], so
    every other value selects light; two toggles in a row change nothing. *)
Theorem theme_after_dispatch (s : App.AppState) (m : dict) (c : N) (t : str) :
  executeToolCall quietOptions
    {| name := lit "change_theme"; parameters := <[lit "theme" := c :: t]> m |} =
    ([ThemeChange (c :: t)],
     Returned {| success := true;
                 message := lit "Theme changed to " ++ c :: t;
                 action := Some (lit "change_theme(" ++ (c :: t) ++ lit ")") |})
  ∧ App.perform s (ThemeChange (c :: t)) =
      {| App.isDarkMode :=
           if decide (c :: t = lit "toggle") then negb (App.isDarkMode s)
           else bool_decide (c :: t = lit "dark");
         App.currentScreen := App.currentScreen s;
         App.notification := App.notification s |}
  ∧ (c :: t ≠ lit "toggle" → c :: t ≠ lit "dark" →
     App.isDarkMode (App.perform s (ThemeChange (c :: t))) = false)
  ∧ App.perform (App.perform s (ThemeChange (lit "toggle")))
                (ThemeChange (lit "toggle")) = s.
Proof.
  split_and!.
  - unfold executeToolCall, get_property. cbn [name parameters].
    rewrite decide_True by done. by rewrite lookup_insert_eq.
  - done.
  - intros H1 H2. cbn. rewrite decide_False by done.
    by rewrite bool_decide_eq_false_2.
  - destruct s as [[] ? ?]; by vm_compute.
Qed.

Lemma theme_after_dispatch_witness :
  App.isDarkMode (App.perform App.initialApp (ThemeChange (lit "Dark"))) = false.
Proof.
  apply (theme_after_dispatch App.initialApp ∅ 68 (lit "ark")); by vm_compute.
Defined.

(** What [ScreenIndicator] draws on the tab bar, whatever the current
    screen: the four tabs, the one of the current screen active. *)
Lemma tabBar_returned (inherited : str → bool) (current : str) :
  App.mapTabs (App.tab inherited current) App.screens =
    Returned
      [ {| App.tabKey := lit "home";
           App.isActive := bool_decide (lit "home" = current);
           App.tabIcon := Some (lit "H"); App.tabTitle := Some (lit "Home") |};
        {| App.tabKey := lit "settings";
           App.isActive := bool_decide (lit "settings" = current);
           App.tabIcon := Some (lit "S"); App.tabTitle := Some (lit "Settings") |};
        {| App.tabKey := lit "profile";
           App.isActive := bool_decide (lit "profile" = current);
           App.tabIcon := Some (lit "P"); App.tabTitle := Some (lit "Profile") |};
        {| App.tabKey := lit "about";
           App.isActive := bool_decide (lit "about" = current);
           App.tabIcon := Some (lit "A"); App.tabTitle := Some (lit "About") |} ].
Proof.
  assert (∀ key info,
            (list_to_map App.screenInfo : gmap (list N) App.ScreenInfo) !! key
              = Some info →
            App.get_screenInfo inherited key = App.Own info) as Hown.
  { intros key info H. unfold App.get_screenInfo. by rewrite H. }
  unfold App.screens, App.mapTabs, App.tab.
  rewrite (Hown (lit "home") _ ltac:(by vm_compute)).
  rewrite (Hown (lit "settings") _ ltac:(by vm_compute)).
  rewrite (Hown (lit "profile") _ ltac:(by vm_compute)).
  rewrite (Hown (lit "about") _ ltac:(by vm_compute)).
  reflexivity.
Qed.

(** A key outside of the table is looked up on the prototype. *)
Lemma get_screenInfo_other (inherited : str → bool) (key : str) :
  key ∉ App.screens →
  App.get_screenInfo inherited key =
    if inherited key then App.Inherited else App.Undefined.
Proof.
  intros H. unfold App.get_screenInfo.
  by rewrite (not_elem_of_list_to_map_1 App.screenInfo key).
Qed.

(** X11: a [navigate_to_screen] call with any non-empty screen is reported
    as a success and makes that text the current screen, one of the four
    screens or not.  [ScreenIndicator], given that screen, throws exactly
    when the screen is none of the four and names nothing the table
    inherits; when it returns, the tab drawn as active is that of the screen
    if it is one of the four and none otherwise, and a title of the current
    screen is drawn exactly for one of the four. *)
Theorem navigation_after_dispatch (inherited : str → bool) (s : App.AppState)
    (m : dict) (c : N) (t : str) :
  executeToolCall quietOptions
    {| name := lit "navigate_to_screen";
       parameters := <[lit "screen" := c :: t]> m |} =
    ([Navigate (c :: t)],
     Returned {| success := true;
                 message := lit "Navigated to " ++ c :: t;
                 action := Some (lit "navigate_to_screen(" ++ (c :: t) ++ lit ")") |})
  ∧ App.currentScreen (App.perform s (Navigate (c :: t))) = c :: t
  ∧ (App.ScreenIndicator inherited
       (App.currentScreen (App.perform s (Navigate (c :: t)))) = Raised
     ↔ (c :: t ∉ App.screens) ∧ inherited (c :: t) = false)
  ∧ ∀ view,
      App.ScreenIndicator inherited
        (App.currentScreen (App.perform s (Navigate (c :: t)))) = Returned view →
      App.activeTabs view = (if decide (c :: t ∈ App.screens) then [c :: t] else [])
      ∧ (is_Some (App.currentScreenTitle view) ↔ c :: t ∈ App.screens).
Proof.
  split; [|split; [done|]].
  - unfold executeToolCall, get_property. cbn [name parameters].
    rewrite !decide_False by by vm_compute. rewrite decide_True by done.
    by rewrite lookup_insert_eq.
  - cbn [App.perform App.onNavigate App.currentScreen].
    generalize (c :: t). intros screen.
    unfold App.ScreenIndicator. rewrite tabBar_returned. cbn [App.andThen].
    destruct (decide (screen ∈ App.screens)) as [Hin|Hout].
    + unfold App.screens in Hin. rewrite !elem_of_cons, elem_of_nil in Hin.
      destruct Hin as [->|[->|[->|[->|[]]]]];
        (split;
         [ split; [by vm_compute|intros [Hout _]; exfalso; apply Hout;
                   by apply (bool_decide_unpack _); vm_compute]
         | intros view [= <-]; split;
           [ by vm_compute
           | split; [intros _; by apply (bool_decide_unpack _); vm_compute
                    |intros _; vm_compute; by eexists] ] ]).
    + rewrite get_screenInfo_other by done.
      pose proof Hout as Hne. unfold App.screens in Hne.
      rewrite !not_elem_of_cons in Hne. destruct Hne as (?&?&?&?&_).
      destruct (inherited screen); cbn [App.read App.andThen].
      * split; [split; [done|by intros [_ ?]]|].
        intros view [= <-]. unfold App.activeTabs. cbn [App.tabBar].
        rewrite !bool_decide_eq_false_2 by done.
        split; [done|]. cbn [App.currentScreenTitle].
        split; [by intros [? ?]|done].
      * split; [done|]. intros view [=].
Qed.

(** The indicator evaluated on one of the four screens: the tab of
    [settings] is the active one. *)
Lemma settings_is_drawn (inherited : str → bool) :
  ∃ view, App.ScreenIndicator inherited (lit "settings") = Returned view
    ∧ App.activeTabs view = [lit "settings"]
    ∧ App.currentScreenTitle view = Some (lit "Settings")
    ∧ App.currentScreenDescription view = Some (lit "App configuration").
Proof. eexists. split; [by vm_compute|]. by vm_compute. Qed.

Lemma navigation_after_dispatch_witness :
  App.ScreenIndicator App.standardInherited
    (App.currentScreen (App.perform App.initialApp (Navigate (lit "cart")))) =
    Raised.
Proof.
  apply (navigation_after_dispatch App.standardInherited App.initialApp ∅
           99 (lit "art")).
  split; [by apply (bool_decide_unpack _); vm_compute|by vm_compute].
Defined.

(** The handlers of the application return, so the dispatcher returns. *)
Lemma quietOptions_returns (call : ToolCall) :
  ∃ log r, executeToolCall quietOptions call = (log, Returned r).
Proof.
  unfold executeToolCall. repeat case_decide; try destruct (falsy _); cbn; eauto.
Qed.

Lemma occurs_drop_left (c : N) (l a b : str) :
  c ∉ a → occurs (c :: l) (a ++ b) → occurs (c :: l) b.
Proof.
  intros Hc (pre & post & E).
  apply app_eq_inv in E as [(k & -> & E)|(k & -> & ->)].
  - destruct k as [|x k]; [exists [], post; by symmetry|].
    injection E as -> _. destruct Hc. apply elem_of_app. right.
    apply elem_of_cons. by left.
  - by exists k, post.
Qed.

Lemma occurs_drop_right (z : N) (l b d : str) :
  z ∉ d → occurs (l ++ [z]) (b ++ d) → occurs (l ++ [z]) b.
Proof.
  intros Hz (pre & post & E). rewrite app_assoc in E.
  apply app_eq_inv in E as [(k & -> & _)|(k & E & ->)].
  - exists pre, k. by rewrite <- !app_assoc.
  - destruct k as [|x k _] using rev_ind.
    + rewrite app_nil_r in E. subst b. exists pre, []. by rewrite app_nil_r.
    + rewrite !app_assoc in E. apply app_inj_tail in E as [_ ->].
      destruct Hz. apply elem_of_app. left. apply elem_of_app. right.
      apply elem_of_cons. by left.
Qed.

Lemma is_word_dot (s : str) : forallb is_word s = true → forallb dot s = true.
Proof.
  apply forallb_weaken. intros c Hc. unfold dot, is_line_terminator.
  destruct (bool_decide _) eqn:E; [|done].
  apply bool_decide_eq_true in E.
  rewrite !elem_of_cons, elem_of_nil in E.
  destruct E as [->|[->|[->|[->|[]]]]]; by vm_compute in Hc.
Qed.

(** A call on one line whose body holds no end marker is a span that the
    removal takes whole. *)
Lemma callSpan_nearestLineSpan (nm body : str) :
  is_name nm → forallb dot body = true → ¬ occurs endMarker body →
  nearestLineSpan (callSpan nm body).
Proof.
  intros [_ Hn] Hd Hno.
  exists (lit "call:" ++ nm ++ lit "{" ++ body ++ lit "}"). split_and!.
  - unfold callSpan. by rewrite <- !app_assoc.
  - by rewrite !forallb_app, (is_word_dot nm), Hd.
  - intros H. apply Hno.
    rewrite !app_assoc in H.
    change endMarker with (lit "<end_function_call" ++ [62%N]) in H.
    apply (occurs_drop_right 62 (lit "<end_function_call") _ (lit "}")) in H.
    + rewrite <- !app_assoc in H.
      change (lit "<end_function_call" ++ [62%N])
        with (60%N :: lit "end_function_call>") in H.
      apply occurs_drop_left in H; [|by apply (bool_decide_unpack _); vm_compute].
      apply occurs_drop_left in H; [|by apply (forallb_not_in is_word)].
      by apply occurs_drop_left in H; [|by apply (bool_decide_unpack _); vm_compute].
    + by apply (bool_decide_unpack _); vm_compute.
Qed.

(** X13: a reply that is exactly one call on one line (the body without
    end marker) is never shown as markup: whatever the name and the
    parameters, the message of the assistant is the message of the
    dispatcher's outcome, success or failure, and its tool call entry carries
    the name, the flag and the action, [name()] when the outcome has none. *)
Theorem single_call_reply (nm body : str) :
  is_name nm → forallb not_rbrace body = true →
  forallb dot body = true → ¬ occurs endMarker body →
  ∃ log r,
    executeToolCall quietOptions
      {| name := nm; parameters := parseParameters body |} = (log, Returned r)
    ∧ App.handleSendMessage (inr (callSpan nm body)) =
        (log,
         {| App.role := App.Assistant;
            App.content := message r;
            App.toolCall :=
              Some (nm, or_else (action r) (nm ++ lit "()"), success r) |}).
Proof.
  intros Hn Hb Hd Hno.
  destruct (quietOptions_returns {| name := nm; parameters := parseParameters body |})
    as (log & r & Hex).
  exists log, r. split; [done|].
  assert (parseToolCall (callSpan nm body) =
          Some {| name := nm; parameters := parseParameters body |}) as Hp.
  { rewrite <- (app_nil_r (callSpan nm body)). by apply parseToolCall_callSpan. }
  assert (extractNonToolText (callSpan nm body) = []) as Hx.
  { destruct (callSpan_nearestLineSpan nm body) as (mid & E & Hmid & Hnear);
      [done..|].
    unfold extractNonToolText. rewrite E.
    rewrite <- (app_nil_r endMarker). by rewrite remove_all_span. }
  unfold App.handleSendMessage, processResponse.
  rewrite Hp, Hx, Hex. unfold assistantContent, App.decoded. cbn.
  done.
Qed.

Lemma single_call_reply_witness :
  ∃ log r,
    executeToolCall quietOptions
      {| name := lit "delete_everything"; parameters := parseParameters [] |} =
      (log, Returned r)
    ∧ App.handleSendMessage (inr (callSpan (lit "delete_everything") [])) =
        (log,
         {| App.role := App.Assistant;
            App.content := message r;
            App.toolCall :=
              Some (lit "delete_everything",
                    or_else (action r) (lit "delete_everything" ++ lit "()"),
                    success r) |}).
Proof.
  apply (single_call_reply (lit "delete_everything") []); try by vm_compute.
  by apply not_occurs_includes.
Defined.

Section MoreLifecycle.
Import LLMContext.

(** X12: without a handle [generateResponse] rejects with
    [Model is not ready] and changes nothing of the state, whatever the
    prompt and whatever the engine would answer; the application then adds
    the system message [Error: Model is not ready] and calls no callback. *)
Theorem not_ready_reply (s : LLMState) (userPrompt : str) (onPartial : bool)
    (tokens : list str) (completion : completionEnd) :
  llamaContextRef s = None →
  generated (generateResponse userPrompt onPartial tokens completion) s =
    Some (inl (lit "Model is not ready"))
  ∧ run (generateResponse userPrompt onPartial tokens completion) s = [s]
  ∧ App.handleSendMessage (inl (lit "Model is not ready")) =
      ([], {| App.role := App.System;
              App.content := lit "Error: Model is not ready";
              App.toolCall := None |}).
Proof.
  intros H. unfold generated. by rewrite H.
Qed.

Lemma not_ready_reply_witness :
  generated (generateResponse (lit "dark mode") false [] (CompletionReturns (lit "ok")))
            initial =
    Some (inl (lit "Model is not ready"))
  ∧ run (generateResponse (lit "dark mode") false [] (CompletionReturns (lit "ok")))
        initial = [initial]
  ∧ App.handleSendMessage (inl (lit "Model is not ready")) =
      ([], {| App.role := App.System;
              App.content := lit "Error: Model is not ready";
              App.toolCall := None |}).
Proof.
  by apply (not_ready_reply initial (lit "dark mode") false []
              (CompletionReturns (lit "ok"))).
Defined.

(** X17: what the chat input lets through.  With the input disabled while
    the model is not ready, as [App.tsx] sets it, a text reaches
    [onSendMessage] only when a handle is held and no generation is running,
    and the text sent is trimmed and not empty. *)
Theorem sent_only_when_ready (s : LLMState) (inputText text : str) (isLoading : bool) :
  App.handleSend inputText isLoading (negb (isModelReady s)) = Some text →
  text = trim inputText ∧ text ≠ [] ∧ trim text = text
  ∧ isLoading = false ∧ llamaContextRef s ≠ None.
Proof.
  unfold App.handleSend, isModelReady.
  destruct (trim inputText) as [|c t] eqn:E; [done|].
  destruct isLoading; [done|].
  destruct (llamaContextRef s); [|done].
  intros [= <-]. split_and!; try done.
  rewrite <- E. apply trim_idemp.
Qed.

Lemma sent_only_when_ready_witness :
  lit "dark mode" = trim (lit "  dark mode ") ∧ lit "dark mode" ≠ []
  ∧ trim (lit "dark mode") = lit "dark mode"
  ∧ false = false
  ∧ llamaContextRef (setContext (Some ctx0) initial) ≠ None.
Proof.
  by apply (sent_only_when_ready (setContext (Some ctx0) initial)
              (lit "  dark mode ") (lit "dark mode") false).
Defined.
End MoreLifecycle.

Section LifecycleFacts.
Import LLMContext Engine.

Ltac states := repeat first [apply Forall_nil_2 | apply Forall_cons_2].

Lemma reports_status_error (events : list (N * N)) (s : LLMState) :
  Forall (λ st, status st = status s ∧ error st = error s) (reports events s).
Proof.
  revert s. induction events as [|ev events IH]; intros s; simpl; [done|].
  constructor; [done|].
  eapply Forall_impl; [apply IH|]. by intros st [-> ->].
Qed.

Lemma run_error_message (op : operation) (s : LLMState) :
  (status s = Error → error s ≠ None) → (status s = Ready → error s = None) →
  Forall (λ st, (status st = Error → error st ≠ None)
                ∧ (status st = Ready → error st = None)) (run op s).
Proof.
  intros H1 H2. destruct op as [| |fe fs events dl|fe rel init|rel|];
    cbv beta iota zeta delta [run].
  - by states.
  - by states.
  - destruct (_ && _); [by states|].
    set (s1 := setDownloadProgress Zero _).
    assert (Forall (λ st, status st = Downloading) (s1 :: reports events s1)) as Hr.
    { constructor; [done|].
      eapply Forall_impl; [apply reports_status_error|]. by intros st [-> _]. }
    apply Forall_app. split.
    + eapply Forall_impl; [apply Hr|]. intros st Hst. by rewrite Hst.
    + constructor; [|done]. by destruct dl as [|[[|]|]].
  - destruct fe; cbn [negb]; [|by states].
    destruct (llamaContextRef _), rel, init; by states.
  - destruct rel; by states.
  - by states.
Qed.

Lemma last_elem_of {A} (l : list A) (d : A) : l ≠ [] → List.last l d ∈ l.
Proof.
  induction l as [|x l IH]; [done|]. intros _.
  destruct l as [|y l]; [by apply elem_of_cons; left|].
  apply elem_of_cons. right. by apply IH.
Qed.

Lemma run_nonempty (op : operation) (s : LLMState) : run op s ≠ [].
Proof.
  destruct op as [| |fe fs events dl|fe rel init|rel|];
    cbv beta iota zeta delta [run]; try done.
  - by destruct (_ && _).
  - destruct fe; cbn [negb]; [|done]. by destruct (llamaContextRef _), rel.
  - by destruct rel.
Qed.

Lemma after_in_run (op : operation) (s : LLMState) : after op s ∈ run op s.
Proof. apply last_elem_of, run_nonempty. Qed.

(** X14: whatever the calls, from the initial state on, a status [error]
    always comes with an error message, and a status [ready] never does. *)
Theorem error_message_by_status (ops : list operation) :
  Forall (λ st, (status st = Error → error st ≠ None)
                ∧ (status st = Ready → error st = None))
         (trace ops initial).
Proof.
  assert (∀ s, (status s = Error → error s ≠ None) →
               (status s = Ready → error s = None) →
               Forall (λ st, (status st = Error → error st ≠ None)
                             ∧ (status st = Ready → error st = None))
                      (trace ops s)) as H.
  { induction ops as [|op ops IH]; intros s H1 H2; simpl; [done|].
    pose proof (run_error_message op s H1 H2) as Hrun.
    apply Forall_app. split; [done|].
    rewrite Forall_forall in Hrun.
    destruct (Hrun _ (after_in_run op s)) as [H3 H4]. by apply IH. }
  by apply H.
Qed.

(** Within one call a handle is the one held before or the one a load that
    found the file has just received. *)
Lemma run_handle (op : operation) (s st : LLMState) (c : LlamaCtx) :
  st ∈ run op s → llamaContextRef st = Some c →
  llamaContextRef s = Some c ∨ ∃ rel, op = loadModel true rel (InitReturns c).
Proof.
  destruct op as [| |fe fs events dl|fe rel init|rel|];
    cbv beta iota zeta delta [run].
  - intros ->%list_elem_of_singleton. by left.
  - intros ->%list_elem_of_singleton. by left.
  - destruct (_ && _); [intros ->%list_elem_of_singleton; by left|].
    set (s1 := setDownloadProgress Zero _).
    assert (Forall (λ st, llamaContextRef st = llamaContextRef s)
                   (s1 :: reports events s1)) as Hr.
    { constructor; [done|].
      eapply Forall_impl; [apply reports_view|]. by intros ? [_ ->]. }
    pose proof (last_Forall _ _ s1 (Forall_inv Hr) Hr) as Hlast.
    rewrite Forall_forall in Hr.
    intros [Hin|Hin%list_elem_of_singleton]%elem_of_app.
    + rewrite (Hr _ Hin). by left.
    + subst st. set (s2 := List.last _ _) in *. clearbody s2.
      destruct dl as [|[[|]|]]; cbn; rewrite Hlast; by left.
  - destruct fe; cbn [negb]; [|intros ->%list_elem_of_singleton; by left].
    change (llamaContextRef (setError None (setStatus Loading s)))
      with (llamaContextRef s).
    destruct (llamaContextRef s) as [c0|] eqn:E, rel, init;
      rewrite !elem_of_cons, elem_of_nil;
      intros Hin; repeat destruct Hin as [->|Hin]; try done; cbn; rewrite ?E;
      try (by left); intros [= ->]; right; by eexists.
  - destruct rel; rewrite !elem_of_cons, elem_of_nil;
      intros Hin; repeat destruct Hin as [->|Hin]; try done; by left.
  - intros ->%list_elem_of_singleton. by left.
Qed.

(** X15: a handle is only ever held after a load that found the model
    file and whose initialisation returned that very context: whatever the
    calls, from the initial state on, if a state reached holds a context, the
    sequence contains such a [loadModel]. *)
Theorem handle_comes_from_load (ops : list operation) (st : LLMState) (c : LlamaCtx) :
  st ∈ trace ops initial → llamaContextRef st = Some c →
  ∃ rel, loadModel true rel (InitReturns c) ∈ ops.
Proof.
  assert (∀ s, st ∈ trace ops s → llamaContextRef st = Some c →
               llamaContextRef s = Some c
               ∨ ∃ rel, loadModel true rel (InitReturns c) ∈ ops) as H.
  { induction ops as [|op ops IH]; intros s; simpl; [by intros ?%elem_of_nil|].
    intros [Hin|Hin]%elem_of_app Hc.
    - destruct (run_handle op s st c Hin Hc) as [?|[rel ->]]; [by left|].
      right. exists rel. by apply elem_of_cons; left.
    - destruct (IH _ Hin Hc) as [Hafter|[rel Hrel]].
      + destruct (run_handle op s _ c (after_in_run op s) Hafter) as [?|[rel ->]];
          [by left|].
        right. exists rel. by apply elem_of_cons; left.
      + right. exists rel. by apply elem_of_cons; right. }
  intros Hin Hc. by destruct (H initial Hin Hc).
Qed.

Lemma handle_comes_from_load_witness :
  ∃ rel, loadModel true rel (InitReturns ctx0) ∈ downloadAndLoad.
Proof.
  apply (handle_comes_from_load downloadAndLoad
           (List.last (trace downloadAndLoad initial) initial) ctx0).
  - by apply last_elem_of.
  - done.
Defined.

Lemma oneAtATime_app (held : option LlamaCtx) (log rest : list engineCall) :
  oneAtATime held (log ++ rest) =
  oneAtATime held log && oneAtATime (foldl unreleased held log) rest.
Proof.
  revert held. induction log as [|call log IH]; intros held; [done|].
  cbn [app oneAtATime foldl].
  destruct call as [[]|[ctx|]], held; try done; by rewrite IH.
Qed.

(** The engine calls of one operation, against the handle held. *)
Lemma engineCalls_one (op : operation) (s : LLMState) :
  oneAtATime (llamaContextRef s) (engineCalls op s) = true
  ∧ foldl unreleased (llamaContextRef s) (engineCalls op s) =
      llamaContextRef (after op s).
Proof.
  destruct op as [| |fe fs events dl|fe rel init|rel|];
    unfold after; cbv beta iota zeta delta [run engineCalls].
  - done.
  - done.
  - split; [done|]. destruct (_ && _); [done|].
    set (s1 := setDownloadProgress Zero _).
    assert (Forall (λ st, llamaContextRef st = llamaContextRef s)
                   (s1 :: reports events s1)) as Hr.
    { constructor; [done|].
      eapply Forall_impl; [apply reports_view|]. by intros ? [_ ->]. }
    pose proof (last_Forall _ _ s1 (Forall_inv Hr) Hr) as Hlast.
    rewrite last_last. set (s2 := List.last _ _) in *. clearbody s2.
    destruct dl as [|[[|]|]]; cbn; by rewrite Hlast.
  - destruct fe; cbn [negb]; [|done].
    change (llamaContextRef (setError None (setStatus Loading s)))
      with (llamaContextRef s).
    by destruct (llamaContextRef s) as [c0|] eqn:E, rel, init.
  - destruct rel; [|done]. cbn. by destruct (llamaContextRef s).
  - done.
Qed.

(** X16: the provider never has the engine initialise a context while it
    holds one: in the engine calls of any sequence from the initial state
    each [initLlama] comes after a [releaseAllLlama] that returned or before
    any initialisation has returned, and the context that is left
    unreleased at the end is exactly the handle held. *)
Theorem one_context_at_a_time (ops : list operation) :
  oneAtATime None (engineLog ops initial) = true
  ∧ foldl unreleased None (engineLog ops initial) =
      llamaContextRef (foldl (λ s op, after op s) initial ops).
Proof.
  assert (∀ s, oneAtATime (llamaContextRef s) (engineLog ops s) = true
               ∧ foldl unreleased (llamaContextRef s) (engineLog ops s) =
                   llamaContextRef (foldl (λ s op, after op s) s ops)) as H.
  { induction ops as [|op ops IH]; intros s; [done|].
    cbn [engineLog foldl].
    destruct (engineCalls_one op s) as [H1 H2].
    destruct (IH (after op s)) as [H3 H4].
    rewrite oneAtATime_app, foldl_app, H1, H2. by split. }
  apply (H initial).
Qed.
End LifecycleFacts.

(** ** More about processing *)

Lemma executeToolCall_log (options : UseToolCallsOptions) (call : ToolCall) :
  length (executeToolCall options call).1 ≤ 1.
Proof.
  unfold executeToolCall.
  repeat case_decide; try destruct (falsy _); cbn; lia.
Qed.

(** X18: processing a response invokes at most one callback, however many
    calls the response holds.  When it returns, either no call was decoded,
    there is no result, nothing was invoked and the text is the raw response;
    or a call was decoded, the result is the dispatcher's outcome for it and
    the text is the prose left after the spans are removed. *)
Theorem process_one_callback (options : UseToolCallsOptions) (response : str) :
  length (processResponse options response).1 ≤ 1
  ∧ match processResponse options response with
    | (log, Returned p) =>
        match toolCall p with
        | None =>
            parseToolCall response = None ∧ result p = None ∧ log = []
            ∧ textResponse p = response
        | Some call =>
            parseToolCall response = Some call
            ∧ (∃ r, result p = Some r
                    ∧ executeToolCall options call = (log, Returned r))
            ∧ textResponse p = extractNonToolText response
        end
    | (_, Raised) => parseToolCall response ≠ None
    end.
Proof.
  unfold processResponse.
  destruct (parseToolCall response) as [call|]; [|by split; [cbn; lia|]].
  pose proof (executeToolCall_log options call) as Hlog.
  destruct (executeToolCall options call) as [log [r|]] eqn:E; cbn in *.
  - split; [done|]. split_and!; [done| |done]. by exists r.
  - done.
Qed.

Lemma split_at_first (c : N) (a p r1 r2 : str) :
  c ∉ a → c ∉ r1 → a ++ c :: r1 = p ++ c :: r2 → p = a ∧ r1 = r2.
Proof.
  intros Ha Hr E.
  apply app_eq_inv in E as [(k & -> & E)|(k & -> & E)].
  - destruct k as [|x k]; [rewrite app_nil_r; by injection E as ->|].
    injection E as -> _. destruct Ha. apply elem_of_app. right.
    apply elem_of_cons. by left.
  - destruct k as [|x k]; [rewrite app_nil_r; by injection E as ->|].
    injection E as <- ->. destruct Hr. apply elem_of_app. right.
    apply elem_of_cons. by left.
Qed.

Lemma callSpan_brace (nm body : str) :
  forallb not_rbrace body = true →
  ∃ a, callSpan nm body = a ++ 125%N :: endMarker
       ∧ (forallb is_word nm = true → 125%N ∉ a).
Proof.
  intros Hb. exists (startMarker ++ lit "call:" ++ nm ++ lit "{" ++ body). split.
  - unfold callSpan. by rewrite <- !app_assoc.
  - intros Hn. apply (forallb_not_in not_rbrace); [done|].
    rewrite !forallb_app, Hb.
    rewrite (forallb_weaken is_word not_rbrace nm); [done| |done].
    intros c Hc. unfold not_rbrace.
    destruct (N.eqb_spec c 125) as [->|]; [by vm_compute in Hc|done].
Qed.

(** X19: a call that is not yet complete is not decoded: of the text of a
    call (a name of word characters, a body without closing brace) no proper
    prefix, as a stream of tokens delivers it, yields a call, and processing
    such a prefix invokes no callback. *)
Theorem partial_call_not_decoded (options : UseToolCallsOptions)
    (nm body partial rest : str) :
  forallb is_word nm = true → forallb not_rbrace body = true →
  partial ++ rest = callSpan nm body → rest ≠ [] →
  parseToolCall partial = None ∧ (processResponse options partial).1 = [].
Proof.
  intros Hn Hb E Hrest.
  assert (parseToolCall partial = None) as Hp.
  { apply parseToolCall_None.
    intros (pre & span & post & (nm' & body' & -> & [_ Hn'] & Hb') & ->).
    destruct (callSpan_brace nm body Hb) as (a & Ea & Ha).
    destruct (callSpan_brace nm' body' Hb') as (a' & Ea' & _).
    rewrite Ea, Ea' in E. rewrite <- !app_assoc in E.
    rewrite (app_assoc pre a') in E. cbn [app] in E.
    symmetry in E. apply split_at_first in E as [_ E];
      [|by apply Ha|by apply (bool_decide_unpack _); vm_compute].
    rewrite <- (app_nil_r endMarker) in E at 1.
    apply app_inv_head in E. symmetry in E.
    by apply app_eq_nil in E as [_ ?]. }
  split; [done|]. unfold processResponse. by rewrite Hp.
Qed.

Lemma partial_call_not_decoded_witness :
  parseToolCall truncatedInput = None
  ∧ (processResponse quietOptions truncatedInput).1 = [].
Proof.
  apply (partial_call_not_decoded quietOptions (lit "change_theme")
           (lit "theme:<escape>dark<escape>") truncatedInput endMarker);
    by vm_compute.
Defined.
